(** * The 3D tic-tac-toe game model ([lib/model.py])

    A shallow embedding of the [Game] class: the board is the dict of
    the source (a [gmap] from [(x, y, z)] tuples to squares), the
    scores are the dict keyed by player, and every method is a
    computation in a small monad that threads the game object, collects
    the pydispatch signals that were sent, and keeps the object as it
    is at the moment an exception is raised.

    Receivers of the signals are outside the model: a signal is
    recorded, and no receiver calls back into the game while a method
    runs. *)

From Stdlib Require Import ZArith String Ascii.
From stdpp Require Import gmap list strings pretty.

Local Open Scope Z_scope.

(** ** Module constants *)

Inductive player := RED | BLUE.

#[global] Instance player_eq_dec : EqDecision player.
Proof. solve_decision. Defined.

#[global] Instance player_countable : Countable player.
Proof.
  refine (inj_countable' (λ p, match p with RED => true | BLUE => false end)
                         (λ b : bool, if b then RED else BLUE) _).
  by intros [].
Defined.

(** The value of a square: [BLANK], or the player who took it. *)
Definition BLANK : option player := None.

Definition SIZE : Z := 3.
Definition SQUARES_PER_LEVEL : Z := SIZE ^ 2.
Definition TOTAL_SQUARES : Z := SIZE ^ 3.
Definition SPECIAL_SQUARES : list Z := [1; 2; 6; 7].

(** Python's [range(n)]. *)
Definition range (n : Z) : list Z := Z.of_nat <$> seq 0 (Z.to_nat n).

Definition RANGE_SIZE : list Z := range SIZE.
Definition RANGE_SIZE_REVERSED : list Z := reverse (range SIZE).
Definition TICTACTOE_VALUE : Z := 1.
Definition SPECIAL_TICTACTOE_VALUE : Z := 2.

Definition STATUS_ONLY_UP : string := "The only way is up!".
Definition STATUS_TIE : string := "A tie!".
Definition STATUS_WINNER : string := "%s wins!!!".
Definition STATUS_POINTS_EARNED : string := "%s point%s!".

(** ** Data *)

(** An [(x, y, z)] tuple of Python integers. *)
Abbreviation position := (Z * Z * Z)%type.

Record Square := mkSquare {
  xyz : position;
  value : option player;
  special : bool
}.

(** The arguments of a status format. *)
Inductive arg :=
| ArgInt (n : Z)
| ArgStr (s : string)
| ArgPlayer (p : player).

Record Game := mkGame {
  board : gmap position Square;
  scores : gmap player Z;
  move_count : Z;
  first_player : player;
  status : list (string * list arg)
}.

(** A signal handed to [dispatcher.send], with its [xyzs_included]
    keyword argument when there is one. *)
Record event := mkEvent {
  signal : string;
  xyzs_included : option (list position)
}.

Inductive exn :=
| ValueError (msg : string)
| KeyError
| IndexError.

(** ** The monad of methods *)

Inductive outcome (A : Type) :=
| Return (a : A)
| Raise (e : exn).
Arguments Return {A} a.
Arguments Raise {A} e.

Definition M (A : Type) : Type := Game → outcome A * Game * list event.

#[global] Instance M_ret : MRet M := λ A a g, (Return a, g, []).

#[global] Instance M_bind : MBind M := λ A B k m g,
  match m g with
  | (Return a, g', evs) =>
      match k a g' with
      | (r, g'', evs') => (r, g'', evs ++ evs')
      end
  | (Raise e, g', evs) => (Raise e, g', evs)
  end.

Definition raise {A} (e : exn) : M A := λ g, (Raise e, g, []).
Definition gets {A} (f : Game → A) : M A := λ g, (Return (f g), g, []).
Definition modify (f : Game → Game) : M unit := λ g, (Return (), f g, []).
Definition send (s : string) (payload : option (list position)) : M unit :=
  λ g, (Return (), g, [mkEvent s payload]).

(** [for a in l: s = body(a, s)]. *)
Fixpoint for_each {A S} (l : list A) (body : A → S → M S) (s : S) : M S :=
  match l with
  | [] => mret s
  | a :: l' => s' ← body a s; for_each l' body s'
  end.

(** The three parts of a finished call. *)
Definition result_of {A} (r : outcome A * Game * list event) : outcome A := r.1.1.
Definition game_of {A} (r : outcome A * Game * list event) : Game := r.1.2.
Definition sent_by {A} (r : outcome A * Game * list event) : list event := r.2.

(** ** Attribute access *)

Definition set_board (b : gmap position Square) (g : Game) : Game :=
  mkGame b (scores g) (move_count g) (first_player g) (status g).
Definition set_scores (s : gmap player Z) (g : Game) : Game :=
  mkGame (board g) s (move_count g) (first_player g) (status g).
Definition set_move_count (n : Z) (g : Game) : Game :=
  mkGame (board g) (scores g) n (first_player g) (status g).
Definition set_first_player (p : player) (g : Game) : Game :=
  mkGame (board g) (scores g) (move_count g) p (status g).
Definition set_status (s : list (string * list arg)) (g : Game) : Game :=
  mkGame (board g) (scores g) (move_count g) (first_player g) s.

Definition set_value (v : option player) (sq : Square) : Square :=
  mkSquare (xyz sq) v (special sq).
Definition set_special (b : bool) (sq : Square) : Square :=
  mkSquare (xyz sq) (value sq) b.

(** [self.board[xyz]]. *)
Definition board_item (p : position) : M Square := λ g,
  match board g !! p with
  | Some sq => (Return sq, g, [])
  | None => (Raise KeyError, g, [])
  end.

(** [self.scores[p]]. *)
Definition scores_item (p : player) : M Z := λ g,
  match scores g !! p with
  | Some n => (Return n, g, [])
  | None => (Raise KeyError, g, [])
  end.

(** An assignment to an attribute of the square object stored under
    [p]: the board holds the object, so the board sees the change. *)
Definition update_square (p : position) (f : Square → Square) : M unit :=
  modify (λ g, set_board (alter f p (board g)) g).

Definition status_append (m : string * list arg) : M unit :=
  modify (λ g, set_status (status g ++ [m]) g).

(** ** [Square] *)

Definition Square_reset (sq : Square) : Square :=
  mkSquare (xyz sq) BLANK false.

Definition Square_init (p : position) : Square :=
  Square_reset (mkSquare p BLANK false).

(** ** [Game] properties *)

Definition done (g : Game) : bool :=
  bool_decide (move_count g = TOTAL_SQUARES).

Definition current_level (g : Game) : Z :=
  move_count g `div` SQUARES_PER_LEVEL.

Definition other_player (p : player) : player :=
  if bool_decide (p = RED) then BLUE else RED.

Definition current_player (g : Game) : player :=
  let odd := move_count g `mod` 2 in
  if bool_decide (odd ≠ 0) then other_player (first_player g)
  else first_player g.

Definition current_move_special (g : Game) : bool :=
  bool_decide (move_count g `mod` SQUARES_PER_LEVEL ∈ SPECIAL_SQUARES).

Definition winner : M (option player) :=
  r ← scores_item RED;
  b ← scores_item BLUE;
  let difference := r - b in
  if bool_decide (difference = 0) then mret None
  else if bool_decide (difference > 0) then mret (Some RED)
  else mret (Some BLUE).

(** ** The winning paths *)

Definition invert (i : Z) : Z := SIZE - 1 - i.

Definition iter_xyz : list position :=
  x ← RANGE_SIZE; y ← RANGE_SIZE; z ← RANGE_SIZE; [(x, y, z)].

Definition _calc_winning_paths : list (list position) :=
  (* tic-tac-toe within a level *)
  (z ← RANGE_SIZE;
     ((λ y, (λ x, (x, y, z)) <$> RANGE_SIZE) <$> RANGE_SIZE)
     ++ ((λ x, (λ y, (x, y, z)) <$> RANGE_SIZE) <$> RANGE_SIZE)
     ++ [ (λ i, (i, i, z)) <$> RANGE_SIZE;
          (λ i, (invert i, i, z)) <$> RANGE_SIZE ])
  (* tic-tac-toe across levels *)
  ++ (x ← RANGE_SIZE;
        ((λ y, (λ z, (x, y, z)) <$> RANGE_SIZE_REVERSED) <$> RANGE_SIZE)
        ++ [ (λ i, (x, i, i)) <$> RANGE_SIZE_REVERSED;
             (λ i, (x, invert i, i)) <$> RANGE_SIZE_REVERSED ])
  ++ (y ← RANGE_SIZE;
        [ (λ i, (i, y, i)) <$> RANGE_SIZE_REVERSED;
          (λ i, (invert i, y, i)) <$> RANGE_SIZE_REVERSED ])
  ++ [ (λ i, (i, i, i)) <$> RANGE_SIZE_REVERSED;
       (λ i, (i, invert i, i)) <$> RANGE_SIZE_REVERSED;
       (λ i, (invert i, i, i)) <$> RANGE_SIZE_REVERSED;
       (λ i, (invert i, invert i, i)) <$> RANGE_SIZE_REVERSED ].

(** The class attribute, once [_calc_winning_paths] has set it; it is
    never written again. *)
Definition _winning_paths : list (list position) :=
  Eval vm_compute in _calc_winning_paths.

(** ** [Game] methods *)

Definition reset_signals : list string :=
  ["LEVEL CHANGED"; "SCORE CHANGED"; "BOARD CHANGED";
   "PLAYER CHANGED"; "STATUS CHANGED"]%string.

(** [choice] is what [random.choice([RED, BLUE])] returns when it is
    called. *)
Definition reset (choice : player) (first_player : option player) : M unit :=
  let first_player :=
    match first_player with
    | None => choice
    | Some p => p
    end in
  modify (set_first_player first_player);;
  modify (λ g, set_board (Square_reset <$> board g) g);;
  for_each [RED; BLUE]
    (λ i _, modify (λ g, set_scores (<[i := 0]> (scores g)) g)) ();;
  modify (set_move_count 0);;
  modify (set_status []);;
  for_each reset_signals (λ signal _, send signal None) ().

(** [Game(first_player)]: the attributes [move_count], [first_player]
    and [status] do not exist before [reset] assigns them; the record
    holds the values [reset] is about to overwrite. *)
Definition Game_init (choice : player) (first_player : option player)
  : outcome unit * Game * list event :=
  let board :=
    foldl (λ b p, <[p := Square_init p]> b) (∅ : gmap position Square) iter_xyz in
  reset choice first_player (mkGame board ∅ 0 choice []).

(** The inner loop of [_handle_tictactoe]: [(hits, special_hits)]. *)
Definition count_hits (path : list position) : M (Z * Z) :=
  for_each path
    (λ p '(hits, special_hits),
       sq ← board_item p;
       cp ← gets current_player;
       if bool_decide (value sq = Some cp) then
         let hits := hits + 1 in
         sq' ← board_item p;
         if special sq' then mret (hits, special_hits + 1)
         else mret (hits, special_hits)
       else mret (hits, special_hits))
    (0, 0).

Definition _handle_tictactoe (p : position) : M unit :=
  let '(x, y, z) := p in
  '(points_earned, xyzs_included) ←
    for_each _winning_paths
      (λ path '(points_earned, xyzs_included),
         match path with
         | [] => raise IndexError
         | (x_, y_, z_) :: _ =>
             if bool_decide (z < z_) then
               (* The only way is up! *)
               mret (points_earned, xyzs_included)
             else if bool_decide ((x, y, z) ∉ path) then
               (* Current point not in path *)
               mret (points_earned, xyzs_included)
             else
               '(hits, special_hits) ← count_hits path;
               let xyzs_included :=
                 if bool_decide (hits = SIZE) then xyzs_included ++ path
                 else xyzs_included in
               let points_earned :=
                 if bool_decide (special_hits = SIZE)
                 then points_earned + SPECIAL_TICTACTOE_VALUE
                 else if bool_decide (hits = SIZE)
                 then points_earned + TICTACTOE_VALUE
                 else points_earned in
               mret (points_earned, xyzs_included)
         end)
      (0, []);
  if bool_decide (points_earned ≠ 0) then
    cp ← gets current_player;
    old ← scores_item cp;
    modify (λ g, set_scores (<[cp := old + points_earned]> (scores g)) g);;
    send "SCORE CHANGED" (Some xyzs_included);;
    let plural := if bool_decide (points_earned ≠ 1) then "s"%string
                  else EmptyString in
    status_append (STATUS_POINTS_EARNED, [ArgInt points_earned; ArgStr plural])
  else mret ().

Definition move (p : position) : M unit :=
  let '(x, y, z) := p in
  level ← gets current_level;
  if bool_decide (z ≠ level) then raise (ValueError "Wrong level") else
  square ← board_item (x, y, z);
  if negb (bool_decide (value square = BLANK)) then
    raise (ValueError "Square taken")
  else
  modify (set_status []);;
  cp ← gets current_player;
  update_square (x, y, z) (set_value (Some cp));;
  sp ← gets current_move_special;
  update_square (x, y, z) (set_special sp);;
  send "BOARD CHANGED" None;;
  _handle_tictactoe (x, y, z);;
  modify (λ g, set_move_count (move_count g + 1) g);;
  send "PLAYER CHANGED" None;;
  mc ← gets move_count;
  let new_level := bool_decide (mc `mod` SQUARES_PER_LEVEL = 0) in
  (if new_level then send "LEVEL CHANGED" None else mret ());;
  d ← gets done;
  (if bool_decide (0 < mc) && negb d && new_level
   then status_append (STATUS_ONLY_UP, []) else mret ());;
  d ← gets done;
  (if (d : bool) return M unit then
     w ← winner;
     match w with
     | None => status_append (STATUS_TIE, [])
     | Some w => status_append (STATUS_WINNER, [ArgPlayer w])
     end
   else mret ());;
  send "STATUS CHANGED" None.

(** ** Runs of the game *)

(** A game that was constructed and then driven through [move] and
    [reset], whatever those calls returned or raised. *)
Inductive reachable : Game → Prop :=
| reachable_init choice fp :
    reachable (game_of (Game_init choice fp))
| reachable_reset g choice fp :
    reachable g → reachable (game_of (reset choice fp g))
| reachable_move g p :
    reachable g → reachable (game_of (move p g)).

(** [play ms g]: the moves [ms] in turn, every one of them returning
    normally. *)
Fixpoint play (ms : list position) (g : Game) : option Game :=
  match ms with
  | [] => Some g
  | m :: ms' =>
      match move m g with
      | (Return _, g', _) => play ms' g'
      | (Raise _, _, _) => None
      end
  end.

(** ** Vocabulary of the statements *)

(** Two paths that hold the same squares. *)
Definition same_cells (p q : list position) : Prop := ∀ c, c ∈ p ↔ c ∈ q.

Definition same_cells_b (p q : list position) : bool :=
  forallb (λ c, bool_decide (c ∈ q)) p && forallb (λ c, bool_decide (c ∈ p)) q.

Fixpoint all_distinct_b (l : list (list position)) : bool :=
  match l with
  | [] => true
  | p :: l' => forallb (λ q, negb (same_cells_b p q)) l' && all_distinct_b l'
  end.

(** The order of the notifications in the table of the interface
    section of the specification. *)
Definition table_order : list string :=
  ["BOARD CHANGED"; "SCORE CHANGED"; "PLAYER CHANGED";
   "LEVEL CHANGED"; "STATUS CHANGED"]%string.

(** The class invariant: the board holds the 27 squares that
    [__init__] put there, and both players have a score. *)
Definition board_ok (g : Game) : Prop :=
  dom (board g) = list_to_set iter_xyz.

Definition scores_ok (g : Game) : Prop :=
  is_Some (scores g !! RED) ∧ is_Some (scores g !! BLUE).

Definition wf (g : Game) : Prop := board_ok g ∧ scores_ok g.

(** No square above the current level is taken: a taken square on
    level [z] means that more than [SQUARES_PER_LEVEL * z] moves were
    made. *)
Definition levels_ok (g : Game) : Prop :=
  ∀ x y z sq, board g !! (x, y, z) = Some sq → value sq ≠ BLANK →
    SQUARES_PER_LEVEL * z < move_count g.

(** A square taken by [cp], and one that is special as well. *)
Definition owned (b : gmap position Square) (cp : player) (c : position) : bool :=
  match b !! c with
  | Some sq => bool_decide (value sq = Some cp)
  | None => false
  end.

Definition is_special (b : gmap position Square) (c : position) : bool :=
  match b !! c with
  | Some sq => special sq
  | None => false
  end.

(** How many positions of a path satisfy a test. *)
Fixpoint tally (f : position → bool) (path : list position) : Z :=
  match path with
  | [] => 0
  | c :: rest => (if f c then 1 else 0) + tally f rest
  end.

(** What one round of the loop of [_handle_tictactoe] adds to
    [points_earned] and to [xyzs_included], for the move [p] of [cp]. *)
Definition round_points (b : gmap position Square) (cp : player)
    (p : position) (path : list position) : Z :=
  match path with
  | [] => 0
  | (_, _, z_) :: _ =>
      if bool_decide (p.2 < z_) then 0
      else if bool_decide (p ∉ path) then 0
      else if bool_decide (tally (λ c, owned b cp c && is_special b c) path = SIZE)
      then SPECIAL_TICTACTOE_VALUE
      else if bool_decide (tally (owned b cp) path = SIZE) then TICTACTOE_VALUE
      else 0
  end.

Definition round_included (b : gmap position Square) (cp : player)
    (p : position) (path : list position) : list position :=
  match path with
  | [] => []
  | (_, _, z_) :: _ =>
      if bool_decide (p.2 < z_) then []
      else if bool_decide (p ∉ path) then []
      else if bool_decide (tally (owned b cp) path = SIZE) then path
      else []
  end.

Definition Zsum (l : list Z) : Z := foldr Z.add 0 l.

(** The points of the claim: every winning path through [p] whose
    squares all belong to [cp] counts 2 when its squares are all
    special and 1 otherwise. *)
Definition path_worth (b : gmap position Square) (cp : player)
    (p : position) (path : list position) : Z :=
  if bool_decide (p ∈ path) && forallb (owned b cp) path then
    if forallb (is_special b) path then 2 else 1
  else 0.

Definition points_due (b : gmap position Square) (cp : player)
    (p : position) : Z :=
  Zsum (path_worth b cp p <$> _winning_paths).

(** The game at the moment [move] sends "BOARD CHANGED". *)
Definition placed (g : Game) (p : position) : Game :=
  set_board
    (alter (set_special (current_move_special g)) p
       (alter (set_value (Some (current_player g))) p (board g)))
    (set_status [] g).

(** The scores once [_handle_tictactoe] has handled [points] points
    of the player [cp]. *)
Definition awarded (sc : gmap player Z) (cp : player) (points : Z)
  : gmap player Z :=
  if bool_decide (points ≠ 0) then
    match sc !! cp with
    | Some old => <[cp := old + points]> sc
    | None => sc
    end
  else sc.

(** The four ways a call of [move] can end. *)
Inductive move_case (g : Game) (p : position)
  : outcome unit * Game * list event → Prop :=
| case_wrong_level :
    p.2 ≠ current_level g →
    move_case g p (Raise (ValueError "Wrong level"), g, [])
| case_key_error :
    p.2 = current_level g → board g !! p = None →
    move_case g p (Raise KeyError, g, [])
| case_square_taken sq :
    p.2 = current_level g → board g !! p = Some sq → value sq ≠ BLANK →
    move_case g p (Raise (ValueError "Square taken"), g, [])
| case_success sq st evs :
    p.2 = current_level g → board g !! p = Some sq → value sq = BLANK →
    move_case g p
      (Return (),
       mkGame (board (placed g p))
              (awarded (scores g) (current_player g)
                 (Zsum (round_points (board (placed g p))
                          (current_player g) p <$> _winning_paths)))
              (move_count g + 1) (first_player g) st,
       evs).

(** What holds of a game [g] on which the moves [ms], and no others,
    were made since it was reset. *)
Record played (ms : list position) (g : Game) : Prop := {
  played_wf : wf g;
  played_count : move_count g = Z.of_nat (length ms);
  played_nodup : NoDup ms;
  played_on_board : ∀ c, c ∈ ms → c ∈ iter_xyz;
  played_value : ∀ c sq, board g !! c = Some sq → value sq ≠ BLANK ↔ c ∈ ms;
  played_special : ∀ c sq, board g !! c = Some sq →
    special sq = true ↔
    ∃ i : nat, ms !! i = Some c
               ∧ Z.of_nat i `mod` SQUARES_PER_LEVEL ∈ SPECIAL_SQUARES
}.

(** A game as its constructor or a call of [reset] leaves it. *)
Inductive just_reset : Game → Prop :=
| just_constructed choice fp :
    just_reset (game_of (Game_init choice fp))
| just_reset_again g choice fp :
    reachable g → just_reset (game_of (reset choice fp g)).

(** Games the examples start from: a new game in which RED is drawn
    to begin, and that game after RED and BLUE took two squares each. *)
Definition new_game : Game := game_of (Game_init RED None).

Definition opening : list position :=
  [(0, 0, 0); (0, 1, 0); (1, 0, 0); (1, 1, 0)].

Definition after_opening : Game :=
  foldl (λ g p, game_of (move p g)) new_game opening.

(** A whole game, level by level and row by row. *)
Definition row_by_row : list position :=
  z ← RANGE_SIZE; y ← RANGE_SIZE; x ← RANGE_SIZE; [(x, y, z)].

(** ** Vocabulary of the further properties *)

(** Every square object sits under its own position. *)
Definition keys_ok (g : Game) : Prop :=
  ∀ c sq, board g !! c = Some sq → xyz sq = c.

(** The moves of a run come level by level: the move made at move
    count [i] is on level [i // SQUARES_PER_LEVEL]. *)
Definition in_order (ms : list position) : Prop :=
  ∀ (i : nat) c, ms !! i = Some c → c.2 = Z.of_nat i `div` SQUARES_PER_LEVEL.

(** The squares of one level of the cube. *)
Definition level_cells (z : Z) : list position :=
  filter (λ c : position, c.2 = z) iter_xyz.

(** The squares that are taken. *)
Definition taken (b : gmap position Square) : gmap position Square :=
  filter (λ kv : position * Square, value kv.2 ≠ BLANK) b.

(** The winner for given scores of RED and BLUE. *)
Definition winner_of (r b : Z) : option player :=
  if bool_decide (r - b = 0) then None
  else if bool_decide (r - b > 0) then Some RED
  else Some BLUE.

(** The status messages of a move, in the order [move] appends them:
    the points earned, the way up, the end of the game. *)
Definition points_status (points : Z) : list (string * list arg) :=
  if bool_decide (points ≠ 0) then
    [(STATUS_POINTS_EARNED,
      [ArgInt points;
       ArgStr (if bool_decide (points ≠ 1) then "s"%string else EmptyString)])]
  else [].

Definition level_status (mc : Z) : list (string * list arg) :=
  if bool_decide (0 < mc) && negb (bool_decide (mc = TOTAL_SQUARES))
     && bool_decide (mc `mod` SQUARES_PER_LEVEL = 0)
  then [(STATUS_ONLY_UP, [])]
  else [].

Definition end_status (mc r b : Z) : list (string * list arg) :=
  if bool_decide (mc = TOTAL_SQUARES) then
    match winner_of r b with
    | None => [(STATUS_TIE, [])]
    | Some w => [(STATUS_WINNER, [ArgPlayer w])]
    end
  else [].

(** The winning paths through [p] that [cp] owns entirely. *)
Definition completed (b : gmap position Square) (cp : player) (p : position)
  : list (list position) :=
  filter (λ path, p ∈ path ∧ Forall (λ c, owned b cp c = true) path)
         _winning_paths.

(** The signals of a move, in the order [move] sends them. *)
Definition score_events (points : Z) (xyzs : list position) : list event :=
  if bool_decide (points ≠ 0) then [mkEvent "SCORE CHANGED" (Some xyzs)]
  else [].

Definition level_events (mc : Z) : list event :=
  if bool_decide (mc `mod` SQUARES_PER_LEVEL = 0)
  then [mkEvent "LEVEL CHANGED" None]
  else [].
(** The straight line of three squares from [c] in direction [d]. *)
Definition step (c d : position) : position :=
  (c.1.1 + d.1.1, c.1.2 + d.1.2, c.2 + d.2).

Definition line (c d : position) : list position :=
  [c; step c d; step (step c d) d].

(** The directions a line of the cube can take. *)
Definition directions : list position :=
  filter (λ d, d ≠ (0, 0, 0))
    (dx ← [-1; 0; 1]; dy ← [-1; 0; 1]; dz ← [-1; 0; 1]; [(dx, dy, dz)]).

Definition lines_covered_b : bool :=
  forallb (λ c,
    forallb (λ d,
      implb (forallb (λ q, bool_decide (q ∈ iter_xyz)) (line c d))
            (existsb (λ path, same_cells_b path (line c d)) _winning_paths))
      directions)
    iter_xyz.
(** ** The scheduler ([lib/scheduler.py]) *)

(** Python's [list.remove(x)]: the first item equal to [x] goes;
    [None] stands for the [ValueError] raised when there is none. *)
Fixpoint list_remove {A} `{EqDecision A} (x : A) (l : list A)
  : option (list A) :=
  match l with
  | [] => None
  | y :: l' =>
      if decide (y = x) then Some l'
      else cons y <$> list_remove x l'
  end.

Section scheduler_model.
Context {Callback : Type} `{EqDecision Callback}.

(** What calling a callback does to [self.waiting]: a callback is free
    to set and cancel timers. *)
Variable call : Callback → list (Z * Callback) → list (Z * Callback).

(** [Scheduler()]. *)
Definition Scheduler_init : list (Z * Callback) := [].

(** The loop of [tick] over [to_call]; the callbacks called so far are
    collected in [called]. *)
Fixpoint tick_loop (to_call waiting : list (Z * Callback))
    (called : list Callback)
  : outcome unit * list (Z * Callback) * list Callback :=
  match to_call with
  | [] => (Return (), waiting, called)
  | (ticks, callback) :: rest =>
      match list_remove (ticks, callback) waiting with
      | None => (Raise (ValueError "list.remove(x): x not in list"),
                 waiting, called)
      | Some waiting' =>
          tick_loop rest (call callback waiting') (called ++ [callback])
      end
  end.

(** [tick()], with [now] what [pygame.time.get_ticks()] returns. *)
Definition Scheduler_tick (now : Z) (waiting : list (Z * Callback))
  : outcome unit * list (Z * Callback) * list Callback :=
  let to_call := filter (λ tc : Z * Callback, now >= tc.1) waiting in
  tick_loop to_call waiting [].

(** The loop of [set_timer] over [to_remove]. *)
Fixpoint remove_loop (to_remove waiting : list (Z * Callback))
  : outcome unit * list (Z * Callback) :=
  match to_remove with
  | [] => (Return (), waiting)
  | tc :: rest =>
      match list_remove tc waiting with
      | None => (Raise (ValueError "list.remove(x): x not in list"), waiting)
      | Some waiting' => remove_loop rest waiting'
      end
  end.

(** [set_timer(milliseconds, callback)], with [now] what
    [pygame.time.get_ticks()] returns when it is asked. *)
Definition Scheduler_set_timer (now milliseconds : Z) (callback : Callback)
    (waiting : list (Z * Callback))
  : outcome unit * list (Z * Callback) :=
  if bool_decide (milliseconds = 0) then
    let to_remove :=
      filter (λ tc : Z * Callback, tc.2 = callback) waiting in
    remove_loop to_remove waiting
  else
    (Return (), waiting ++ [(now + milliseconds, callback)]).

End scheduler_model.
(** ** The text game ([TextGame] in [lib/model.py]) *)

(** [str(n)] of an integer is its decimal numeral, [pretty n]. *)

(** [RED] and [BLUE] as the strings they are. *)
Definition player_str (p : player) : string :=
  match p with
  | RED => "X"
  | BLUE => "O"
  end.

(** [s.split(sep)] for a separator of one character. *)
Fixpoint split (sep : ascii) (s : string) : list string :=
  match s with
  | EmptyString => [EmptyString]
  | String c s' =>
      if decide (c = sep) then EmptyString :: split sep s'
      else match split sep s' with
           | [] => [String c EmptyString]
           | w :: ws => String c w :: ws
           end
  end.

(** What [TextGame.move] can raise: an exception of the game, or the
    [EOFError] of [raw_input]. *)
Inductive console_exn :=
| GameError (e : exn)
| EOFError.

Inductive console_outcome :=
| Returned
| Raised (e : console_exn).

(** The lines still to be read, and the [print] statements executed:
    the items of each, and whether it ends the line. *)
Record console := mkConsole {
  stdin : list string;
  stdout : list (list string * bool)
}.

Section text_game.

(** Python's [int] on a string; [None] stands for its [ValueError]. *)
Variable int_of_str : string → option Z.

(** [TextGame.move], on the lines that [raw_input] will return. Every
    call reads one line before it calls itself again. The recursion
    limit of the interpreter is not part of the model. *)
Fixpoint TextGame_move (lines : list string) (out : list (list string * bool))
    (g : Game) : console_outcome * Game * list event * console :=
  let fmt := "Expected num,num"%string in
  let out :=
    out ++ [([player_str (current_player g) +:+ ", please enter row,col:"],
             false)] in
  match lines with
  | [] => (Raised EOFError, g, [], mkConsole [] out)
  | line :: lines =>
      let nums := split "," line in
      if bool_decide (length nums ≠ 2%nat) then
        TextGame_move lines (out ++ [([fmt], true)]) g
      else
        match mapM int_of_str nums with
        | None => TextGame_move lines (out ++ [([fmt], true)]) g
        | Some nums =>
            match list_find (λ num, num < 1 ∨ 3 < num) nums with
            | Some (_, num) =>
                TextGame_move lines
                  (out ++ [(["Out of range:"%string; pretty num], true)]) g
            | None =>
                match nums with
                | [row; col] =>
                    let '(x, y) := (col - 1, row - 1) in
                    match move (x, y, current_level g) g with
                    | (Return _, g', evs) =>
                        (Returned, g', evs, mkConsole lines out)
                    | (Raise (ValueError msg), g', evs) =>
                        match TextGame_move lines (out ++ [([msg], true)]) g' with
                        | (r, g'', evs', io) => (r, g'', evs ++ evs', io)
                        end
                    | (Raise e, g', evs) =>
                        (Raised (GameError e), g', evs, mkConsole lines out)
                    end
                | _ =>
                    (Raised (GameError (ValueError "need more than 1 value to unpack")),
                     g, [], mkConsole lines out)
                end
            end
        end
  end.

End text_game.
(** ** Texts *)

(** [str(x)] of an argument of a status format. *)
Definition str_arg (a : arg) : string :=
  match a with
  | ArgInt n => pretty n
  | ArgStr s => s
  | ArgPlayer p => player_str p
  end.

(** [fmt % args] for arguments that are strings already and a format
    whose conversions are all [%s], as the formats of this program
    are. [None] stands for the [TypeError] of too few or too many
    arguments; a conversion other than [%s] and [%%] is outside the
    model and gives [None] as well. *)
Fixpoint format (fmt : string) (args : list string) : option string :=
  match fmt with
  | EmptyString =>
      match args with
      | [] => Some EmptyString
      | _ :: _ => None
      end
  | String "%" (String "s" rest) =>
      match args with
      | a :: args' => String.append a <$> format rest args'
      | [] => None
      end
  | String "%" (String "%" rest) => String "%" <$> format rest args
  | String "%" _ => None
  | String c rest => String c <$> format rest args
  end.

(** [sep.join(items)]. *)
Fixpoint join (sep : string) (items : list string) : string :=
  match items with
  | [] => EmptyString
  | [s] => s
  | s :: rest => s +:+ sep +:+ join sep rest
  end.

(** [TextGame.print_status]: the [print] statements after it, or
    [None] for a [TypeError] of a format. *)
Definition TextGame_print_status (g : Game) (out : list (list string * bool))
  : option (list (list string * bool)) :=
  if bool_decide (status g = []) then Some out
  else
    texts ← mapM (λ m : string * list arg, format m.1 (str_arg <$> m.2))
                 (status g);
    Some (out ++ [([join " " texts], false)]).

(** [Square.__repr__]. *)
Definition SPECIAL : string := "*".

Definition value_str (v : option player) : string :=
  match v with
  | None => "_"
  | Some p => player_str p
  end.

Definition Square_repr (sq : Square) : string :=
  value_str (value sq) +:+ (if special sq then SPECIAL else " ").

(** ** The view ([lib/view.py]) *)

Definition SCREEN_HEIGHT : Z := 768.
Definition BOARD_OFFSET_BOTTOM : Z := 37.
Definition BOARD_OFFSET_LEFT : Z := 46.
Definition Z_OFFSET_BOTTOM : Z := 243.
Definition Y_OFFSET_BOTTOM : Z := 69.
Definition Y_OFFSET_LEFT : Z := 46.
Definition X_OFFSET_LEFT : Z := 106.
Definition MAX_SHOWABLE_STATUS_LINES : Z := 3.

(** [rect.bottom] and [rect.left] of the sprite that [view.Square]
    makes for the square at a position. *)
Definition Square_view_bottom (p : position) : Z :=
  let '(x, y, z) := p in
  SCREEN_HEIGHT - (BOARD_OFFSET_BOTTOM + z * Z_OFFSET_BOTTOM
                   + invert y * Y_OFFSET_BOTTOM).

Definition Square_view_left (p : position) : Z :=
  let '(x, y, z) := p in
  BOARD_OFFSET_LEFT + invert y * Y_OFFSET_LEFT + x * X_OFFSET_LEFT.

(** [LevelLabel.calc_text]. *)
Definition LevelLabel_calc_text (g : Game) : string :=
  "Level: " +:+ pretty (Z.min (current_level g + 1) SIZE).
(** [square_value_to_string]: a lookup in [{RED: "Red", BLUE: "Blue"}];
    [None] stands for its [KeyError]. *)
Definition square_value_to_string (a : arg) : option string :=
  match a with
  | ArgPlayer RED => Some "Red"%string
  | ArgPlayer BLUE => Some "Blue"%string
  | _ => None
  end.

(** [StatusLabel.calc_text] for the label of line [line_number]. The
    [IndexError] of a line or of an argument that is not there is
    caught and gives the empty text; [None] stands for any other
    exception, which is not caught. *)
Definition StatusLabel_calc_text (g : Game) (line_number : nat)
  : option string :=
  match status g !! line_number with
  | None => Some EmptyString
  | Some (fmt, args) =>
      if bool_decide (fmt = STATUS_WINNER) then
        match args with
        | [] => Some EmptyString
        | a :: _ => name ← square_value_to_string a; format fmt [name]
        end
      else format fmt (str_arg <$> args)
  end.
(** Further games and inputs for the examples: a game played to its
    end, callbacks that are numbers and leave the scheduler alone, and
    a reader of decimal numerals. *)
Definition finished_game : Game :=
  foldl (λ g p, game_of (move p g)) new_game row_by_row.

Definition quiet (c : nat) (w : list (Z * nat)) : list (Z * nat) := w.

Definition digit_value (c : ascii) : option Z :=
  let n := Z.of_N (N_of_ascii c) - 48 in
  if bool_decide (0 ≤ n ≤ 9) then Some n else None.

Fixpoint numeral_value (acc : Z) (s : string) : option Z :=
  match s with
  | EmptyString => Some acc
  | String c s' => d ← digit_value c; numeral_value (10 * acc + d) s'
  end.

Definition int_of_numeral (s : string) : option Z :=
  match s with
  | EmptyString => None
  | _ => numeral_value 0 s
  end.

(** * Properties *)

(** ** The table of winning paths *)

Lemma _winning_paths_eq : _winning_paths = _calc_winning_paths.
Proof. reflexivity. Qed.

Lemma same_cells_b_true p q : same_cells p q → same_cells_b p q = true.
Proof.
  intros H. unfold same_cells_b. apply andb_true_iff. split.
  - apply forallb_forall. intros c Hc. apply bool_decide_eq_true.
    apply H, list_elem_of_In, Hc.
  - apply forallb_forall. intros c Hc. apply bool_decide_eq_true.
    apply H, list_elem_of_In, Hc.
Qed.

Lemma same_cells_sym p q : same_cells p q → same_cells q p.
Proof. intros H c. symmetry. apply H. Qed.

Lemma all_distinct_b_lookup l :
  all_distinct_b l = true →
  ∀ (i j : nat) p q,
    l !! i = Some p → l !! j = Some q → same_cells p q → i = j.
Proof.
  induction l as [|a l IH]; intros Hd i j p q Hi Hj Hs.
  - by rewrite lookup_nil in Hi.
  - cbn in Hd. apply andb_true_iff in Hd as [Ha Hl].
    rewrite forallb_forall in Ha.
    destruct i as [|i], j as [|j]; cbn in Hi, Hj.
    + done.
    + injection Hi as ->. exfalso.
      apply list_elem_of_lookup_2, list_elem_of_In, Ha in Hj.
      rewrite (same_cells_b_true _ _ Hs) in Hj. discriminate.
    + injection Hj as ->. exfalso.
      apply list_elem_of_lookup_2, list_elem_of_In, Ha in Hi.
      rewrite (same_cells_b_true _ _ (same_cells_sym _ _ Hs)) in Hi.
      discriminate.
    + f_equal. by eapply IH.
Qed.

Lemma winning_paths_distinct (i j : nat) p q :
  _winning_paths !! i = Some p → _winning_paths !! j = Some q →
  same_cells p q → i = j.
Proof. apply all_distinct_b_lookup. vm_compute. reflexivity. Qed.

Lemma winning_paths_length :
  Forall (λ path, length path = Z.to_nat SIZE) _winning_paths.
Proof. unfold _winning_paths. repeat constructor. Qed.

(** C4. The table that [_calc_winning_paths] builds has 49 entries,
    every entry has [SIZE] positions, and no two entries (at different
    indices) hold the same set of positions. *)
Theorem calc_winning_paths_table :
  length _calc_winning_paths = 49%nat
  ∧ Forall (λ path, length path = Z.to_nat SIZE) _calc_winning_paths
  ∧ ∀ (i j : nat) p q,
      _calc_winning_paths !! i = Some p →
      _calc_winning_paths !! j = Some q →
      same_cells p q → i = j.
Proof.
  rewrite <- _winning_paths_eq. split; [reflexivity|]. split.
  - apply winning_paths_length.
  - apply winning_paths_distinct.
Qed.

(** C7. The first position of every entry of the table carries the
    largest [z] of the entry. *)
Theorem winning_paths_top_first :
  Forall (λ path, ∃ x_ y_ z_ rest,
            path = (x_, y_, z_) :: rest ∧ Forall (λ c : position, c.2 ≤ z_) path)
         _calc_winning_paths.
Proof.
  rewrite <- _winning_paths_eq. unfold _winning_paths.
  repeat (apply Forall_cons; split;
          [ eexists _, _, _, _; split;
            [ reflexivity | repeat (apply Forall_cons; split; [simpl; lia|]); apply Forall_nil_2 ] | ]).
  apply Forall_nil_2.
Qed.

(** ** [reset] *)

Lemma reset_sent choice fp g :
  signal <$> sent_by (reset choice fp g) = reset_signals.
Proof. reflexivity. Qed.

(** C6, as the code has it. [reset] sends five signals, one of each
    kind, in the order level, score, board, player, status; it returns
    normally. *)
Theorem reset_sends_each_signal_once choice fp g :
  result_of (reset choice fp g) = Return ()
  ∧ signal <$> sent_by (reset choice fp g)
    = ["LEVEL CHANGED"; "SCORE CHANGED"; "BOARD CHANGED";
       "PLAYER CHANGED"; "STATUS CHANGED"]%string
  ∧ NoDup (signal <$> sent_by (reset choice fp g))
  ∧ signal <$> sent_by (reset choice fp g) ≡ₚ table_order.
Proof.
  split; [reflexivity|]. split; [reflexivity|].
  rewrite reset_sent. split.
  - unfold reset_signals. apply (bool_decide_unpack _). vm_compute. exact I.
  - unfold reset_signals, table_order.
    apply (bool_decide_unpack _). vm_compute. exact I.
Qed.

(** C6, as the specification words it: the order of the table is not
    the order in which [reset] sends. *)
Lemma reset_order_differs_from_table :
  signal <$> sent_by (reset RED None new_game) ≠ table_order.
Proof. rewrite reset_sent. discriminate. Qed.

(** ** Running the monad *)

Lemma bind_run {A B} (m : M A) (k : A → M B) g :
  (m ≫= k) g =
    match m g with
    | (Return a, g', evs) =>
        match k a g' with
        | (r, g'', evs') => (r, g'', evs ++ evs')
        end
    | (Raise e, g', evs) => (Raise e, g', evs)
    end.
Proof. reflexivity. Qed.

Lemma bind_pure {A B} (m : M A) (k : A → M B) g a :
  m g = (Return a, g, []) → (m ≫= k) g = k a g.
Proof.
  intros H. rewrite bind_run, H. destruct (k a g) as [[r g'] evs]. reflexivity.
Qed.

Lemma board_item_run g p sq :
  board g !! p = Some sq → board_item p g = (Return sq, g, []).
Proof. intros H. unfold board_item. by rewrite H. Qed.

(** ** The scan of the winning paths *)

Section scan.
Variable g : Game.

Let b := board g.
Let cp := current_player g.

Lemma count_hits_loop path hits special_hits :
  Forall (λ c, is_Some (board g !! c)) path →
  for_each path
    (λ p '(hits, special_hits),
       sq ← board_item p;
       cp ← gets current_player;
       if bool_decide (value sq = Some cp) then
         let hits := hits + 1 in
         sq' ← board_item p;
         if special sq' then mret (hits, special_hits + 1)
         else mret (hits, special_hits)
       else mret (hits, special_hits))
    (hits, special_hits) g
  = (Return (hits + tally (owned b cp) path,
             special_hits + tally (λ c, owned b cp c && is_special b c) path),
     g, []).
Proof.
  intros Hin. revert hits special_hits.
  induction Hin as [|c path [sq Hsq] _ IH]; intros hits special_hits.
  - cbn. by rewrite !Z.add_0_r.
  - cbn [for_each tally].
    rewrite (bind_pure _ _ g
               (hits + (if owned b cp c then 1 else 0),
                special_hits + (if owned b cp c && is_special b c then 1 else 0))).
    + rewrite IH. by rewrite !Z.add_assoc.
    + rewrite (bind_pure _ _ g sq) by by apply board_item_run.
      rewrite (bind_pure _ _ g cp) by reflexivity.
      unfold owned, is_special, b. rewrite Hsq.
      case_bool_decide.
      * rewrite (bind_pure _ _ g sq) by by apply board_item_run.
        destruct (special sq); cbn; by rewrite ?Z.add_0_r.
      * cbn. by rewrite !Z.add_0_r.
Qed.

Lemma count_hits_run path :
  Forall (λ c, is_Some (board g !! c)) path →
  count_hits path g
  = (Return (tally (owned b cp) path,
             tally (λ c, owned b cp c && is_special b c) path), g, []).
Proof. intros H. unfold count_hits. by rewrite count_hits_loop. Qed.

Variables x y z : Z.

Lemma scan_loop paths points_earned xyzs_included :
  Forall (λ path, Forall (λ c, is_Some (board g !! c)) path ∧ path ≠ []) paths →
  for_each paths
    (λ path '(points_earned, xyzs_included),
       match path with
       | [] => raise IndexError
       | (x_, y_, z_) :: _ =>
           if bool_decide (z < z_) then
             mret (points_earned, xyzs_included)
           else if bool_decide ((x, y, z) ∉ path) then
             mret (points_earned, xyzs_included)
           else
             '(hits, special_hits) ← count_hits path;
             let xyzs_included :=
               if bool_decide (hits = SIZE) then xyzs_included ++ path
               else xyzs_included in
             let points_earned :=
               if bool_decide (special_hits = SIZE)
               then points_earned + SPECIAL_TICTACTOE_VALUE
               else if bool_decide (hits = SIZE)
               then points_earned + TICTACTOE_VALUE
               else points_earned in
             mret (points_earned, xyzs_included)
       end)
    (points_earned, xyzs_included) g
  = (Return (points_earned + Zsum (round_points b cp (x, y, z) <$> paths),
             xyzs_included ++ concat (round_included b cp (x, y, z) <$> paths)),
     g, []).
Proof.
  intros Hin. revert points_earned xyzs_included.
  induction Hin as [|path paths [Hpath Hne] _ IH];
    intros points_earned xyzs_included.
  - cbn. by rewrite Z.add_0_r, app_nil_r.
  - cbn [for_each fmap list_fmap Zsum foldr concat].
    rewrite (bind_pure _ _ g
               (points_earned + round_points b cp (x, y, z) path,
                xyzs_included ++ round_included b cp (x, y, z) path)).
    + rewrite IH. by rewrite Z.add_assoc, app_assoc.
    + destruct path as [|[[x_ y_] z_] rest]; [done|].
      unfold round_points, round_included. cbn [snd].
      case_bool_decide; [cbn; by rewrite Z.add_0_r, app_nil_r|].
      case_bool_decide; [cbn; by rewrite Z.add_0_r, app_nil_r|].
      rewrite (bind_pure _ _ g _ (count_hits_run _ Hpath)).
      fold b cp.
      repeat case_bool_decide;
        cbn; by rewrite ?Z.add_0_r, ?app_nil_r.
Qed.

Lemma _handle_tictactoe_run :
  Forall (λ path, Forall (λ c, is_Some (board g !! c)) path ∧ path ≠ [])
         _winning_paths →
  is_Some (scores g !! cp) →
  ∃ st evs,
    _handle_tictactoe (x, y, z) g
    = (Return (),
       mkGame (board g)
              (awarded (scores g) cp
                 (Zsum (round_points b cp (x, y, z) <$> _winning_paths)))
              (move_count g) (first_player g) st,
       evs).
Proof.
  intros Hpaths [old Hold]. unfold _handle_tictactoe.
  rewrite (bind_pure _ _ g _ (scan_loop _ 0 [] Hpaths)).
  rewrite Z.add_0_l. unfold awarded.
  set (points := Zsum _). case_bool_decide.
  - rewrite (bind_pure _ _ g cp) by reflexivity.
    rewrite (bind_pure _ _ g old)
      by (unfold scores_item; fold cp; by rewrite Hold).
    fold cp. rewrite Hold. eexists _, _. reflexivity.
  - exists (status g), []. by destruct g.
Qed.
End scan.

(** ** The class invariant *)

Lemma elem_of_iter_xyz x y z :
  (x, y, z) ∈ iter_xyz ↔ (0 ≤ x ≤ 2 ∧ 0 ≤ y ≤ 2 ∧ 0 ≤ z ≤ 2).
Proof.
  split.
  - intros H. apply list_elem_of_In in H. vm_compute in H.
    repeat (destruct H as [H|H]; [simplify_eq; lia|]). done.
  - intros (Hx & Hy & Hz).
    assert (x = 0 ∨ x = 1 ∨ x = 2) as Hx' by lia.
    assert (y = 0 ∨ y = 1 ∨ y = 2) as Hy' by lia.
    assert (z = 0 ∨ z = 1 ∨ z = 2) as Hz' by lia.
    destruct Hx' as [-> | [-> | ->]], Hy' as [-> | [-> | ->]], Hz' as [-> | [-> | ->]];
      apply (bool_decide_unpack _); vm_compute; exact I.
Qed.

Lemma board_ok_lookup g p :
  board_ok g → is_Some (board g !! p) ↔ p ∈ iter_xyz.
Proof.
  intros H. rewrite <- elem_of_dom, H. apply elem_of_list_to_set.
Qed.

Lemma winning_paths_on_board :
  Forall (λ path, Forall (λ c, c ∈ iter_xyz) path ∧ path ≠ []) _winning_paths.
Proof.
  unfold _winning_paths.
  repeat (apply Forall_cons; split;
          [ split; [ repeat (apply Forall_cons; split;
                              [ apply (bool_decide_unpack _); vm_compute; exact I | ]);
                     apply Forall_nil_2
                   | discriminate ] | ]).
  apply Forall_nil_2.
Qed.

Lemma board_ok_paths g :
  board_ok g →
  Forall (λ path, Forall (λ c, is_Some (board g !! c)) path ∧ path ≠ [])
         _winning_paths.
Proof.
  intros H. eapply Forall_impl; [apply winning_paths_on_board|].
  intros path [Hp Hne]. split; [|done].
  eapply Forall_impl; [apply Hp|]. intros c Hc. by apply board_ok_lookup.
Qed.

Lemma board_ok_placed g p : board_ok g → board_ok (placed g p).
Proof. unfold board_ok, placed. cbn. by rewrite !dom_alter_L. Qed.

Lemma scores_ok_awarded sc cp points p :
  is_Some (sc !! p) → is_Some (awarded sc cp points !! p).
Proof.
  intros H. unfold awarded. case_bool_decide; [|done].
  destruct (sc !! cp) eqn:E; [|done].
  destruct (decide (cp = p)) as [->|Hne].
  - rewrite lookup_insert_eq. eauto.
  - by rewrite lookup_insert_ne.
Qed.

(** ** What [move] does *)

Lemma move_wrong_level g x y z :
  z ≠ current_level g →
  move (x, y, z) g = (Raise (ValueError "Wrong level"), g, []).
Proof.
  intros H. unfold move. rewrite (bind_pure _ _ g (current_level g)) by reflexivity.
  by rewrite bool_decide_eq_true_2.
Qed.

Lemma move_key_error g x y z :
  z = current_level g → board g !! (x, y, z) = None →
  move (x, y, z) g = (Raise KeyError, g, []).
Proof.
  intros Hz H. unfold move.
  rewrite (bind_pure _ _ g (current_level g)) by reflexivity.
  rewrite bool_decide_eq_false_2 by (intros Hne; by apply Hne).
  rewrite bind_run. unfold board_item. by rewrite H.
Qed.

Lemma move_square_taken g x y z sq :
  z = current_level g → board g !! (x, y, z) = Some sq → value sq ≠ BLANK →
  move (x, y, z) g = (Raise (ValueError "Square taken"), g, []).
Proof.
  intros Hz H Hv. unfold move.
  rewrite (bind_pure _ _ g (current_level g)) by reflexivity.
  rewrite bool_decide_eq_false_2 by (intros Hne; by apply Hne).
  rewrite (bind_pure _ _ g sq) by by apply board_item_run.
  by rewrite bool_decide_eq_false_2.
Qed.

Lemma winner_run bd sc mc fp st :
  is_Some (sc !! RED) → is_Some (sc !! BLUE) →
  ∃ w, winner (mkGame bd sc mc fp st) = (Return w, mkGame bd sc mc fp st, []).
Proof.
  intros [r Hr] [b Hb]. unfold winner, scores_item.
  rewrite !bind_run. cbn [scores]. rewrite Hr. cbv beta iota.
  rewrite !bind_run. cbn [scores]. rewrite Hb. cbv beta iota.
  repeat case_bool_decide; eexists; reflexivity.
Qed.

Lemma move_success g x y z sq :
  wf g →
  z = current_level g → board g !! (x, y, z) = Some sq → value sq = BLANK →
  ∃ st evs,
    move (x, y, z) g
    = (Return (),
       mkGame (board (placed g (x, y, z)))
              (awarded (scores g) (current_player g)
                 (Zsum (round_points (board (placed g (x, y, z)))
                          (current_player g) (x, y, z) <$> _winning_paths)))
              (move_count g + 1) (first_player g) st,
       evs).
Proof.
  intros [Hb Hs] Hz H Hv. unfold move.
  rewrite (bind_pure _ _ g (current_level g)) by reflexivity.
  rewrite bool_decide_eq_false_2 by (intros Hne; by apply Hne).
  rewrite (bind_pure _ _ g sq) by by apply board_item_run.
  rewrite bool_decide_eq_true_2 by done. cbn [negb].
  destruct (_handle_tictactoe_run (placed g (x, y, z)) x y z) as (st1 & evs1 & Hrun).
  { apply board_ok_paths. by apply board_ok_placed. }
  { cbn. destruct Hs as [Hr Hbl]. by destruct (current_player _). }
  change (current_player (placed g (x, y, z))) with (current_player g) in Hrun.
  change (scores (placed g (x, y, z))) with (scores g) in Hrun.
  change (move_count (placed g (x, y, z))) with (move_count g) in Hrun.
  change (first_player (placed g (x, y, z))) with (first_player g) in Hrun.
  set (b1 := board (placed g (x, y, z))) in *.
  set (sc2 := awarded (scores g) (current_player g) _) in *.
  assert (∀ mc st, ∃ w,
            winner (mkGame b1 sc2 mc (first_player g) st)
            = (Return w, mkGame b1 sc2 mc (first_player g) st, [])) as Hwin.
  { intros mc st. destruct Hs as [Hr Hbl].
    apply winner_run; by apply scores_ok_awarded. }
  clearbody sc2.
  unfold update_square, status_append. unfold modify, gets, send.
  do 6 (rewrite bind_run; cbv beta iota).
  rewrite bind_run.
  change (_handle_tictactoe (x, y, z) _)
    with (_handle_tictactoe (x, y, z) (placed g (x, y, z))).
  rewrite Hrun. cbv beta iota. clearbody b1.
  do 3 (rewrite bind_run; cbv beta iota).
  cbn [move_count set_move_count board scores first_player status
       set_board set_status].
  destruct (bool_decide (move_count g + 1 = TOTAL_SQUARES)) eqn:Hdone;
    destruct (bool_decide (_ `mod` _ = 0));
    destruct (bool_decide (0 < move_count g + 1));
    repeat (first
      [ rewrite bind_run
      | progress cbv beta iota delta
          [mret M_ret done andb negb set_move_count set_status set_board]
      | progress cbn [move_count status board scores first_player]
      | rewrite Hdone
      | match goal with
        | |- context [winner (mkGame _ _ ?mc _ ?st)] =>
            let w := fresh "w" in
            let Hw := fresh "Hw" in
            destruct (Hwin mc st) as [w Hw]; rewrite Hw; destruct w
        end ]);
    eexists _, _; reflexivity.
Qed.

Lemma move_cases g p : wf g → move_case g p (move p g).
Proof.
  intros Hwf. destruct p as [[x y] z].
  destruct (decide (z = current_level g)) as [Hz|Hz].
  - destruct (board g !! (x, y, z)) as [sq|] eqn:Hsq.
    + destruct (decide (value sq = BLANK)) as [Hv|Hv].
      * destruct (move_success g x y z sq Hwf Hz Hsq Hv) as (st & evs & ->).
        by eapply case_success.
      * rewrite (move_square_taken g x y z sq Hz Hsq Hv).
        by eapply case_square_taken.
    + rewrite (move_key_error g x y z Hz Hsq). by apply case_key_error.
  - rewrite (move_wrong_level g x y z Hz). by apply case_wrong_level.
Qed.

Lemma reset_run choice fp g :
  reset choice fp g
  = (Return (),
     mkGame (Square_reset <$> board g)
            (<[BLUE := 0]> (<[RED := 0]> (scores g)))
            0 (default choice fp) [],
     (λ s, mkEvent s None) <$> reset_signals).
Proof. destruct fp; reflexivity. Qed.

Lemma wf_reset choice fp g : board_ok g → wf (game_of (reset choice fp g)).
Proof.
  intros Hb. rewrite reset_run. split.
  - unfold board_ok, game_of. cbn. by rewrite dom_fmap_L.
  - unfold scores_ok, game_of. cbn. split.
    + rewrite lookup_insert_ne by done. rewrite lookup_insert_eq. eauto.
    + rewrite lookup_insert_eq. eauto.
Qed.

Lemma board_ok_before_reset choice :
  board_ok (mkGame (foldl (λ b p, <[p := Square_init p]> b) ∅ iter_xyz)
                   ∅ 0 choice []).
Proof.
  unfold board_ok. cbn [board].
  generalize iter_xyz. intros l.
  assert (∀ b : gmap position Square,
            dom (foldl (λ b p, <[p := Square_init p]> b) b l)
            = dom b ∪ list_to_set l) as Hfold.
  { induction l as [|p l IH]; intros b; cbn [foldl list_to_set].
    - by rewrite union_empty_r_L.
    - rewrite IH, dom_insert_L.
      by rewrite (comm_L (∪) {[p]} (dom b)), (assoc_L (∪)). }
  by rewrite Hfold, dom_empty_L, union_empty_l_L.
Qed.

Lemma wf_init choice fp : wf (game_of (Game_init choice fp)).
Proof. unfold Game_init. apply wf_reset, board_ok_before_reset. Qed.

Lemma wf_move g p : wf g → wf (game_of (move p g)).
Proof.
  intros Hwf. destruct (move_cases g p Hwf); try done.
  destruct Hwf as [Hb [Hr Hbl]]. split.
  - by apply board_ok_placed.
  - split; by apply scores_ok_awarded.
Qed.

Lemma lookup_placed g p c :
  board (placed g p) !! c
  = if decide (p = c)
    then (λ sq, mkSquare (xyz sq) (Some (current_player g))
                         (current_move_special g)) <$> board g !! c
    else board g !! c.
Proof.
  unfold placed. cbn [board set_board]. case_decide as Hc.
  - subst c. rewrite !lookup_alter_eq. by destruct (board g !! p).
  - by rewrite !lookup_alter_ne.
Qed.

Lemma levels_ok_reset choice fp g : levels_ok (game_of (reset choice fp g)).
Proof.
  rewrite reset_run. intros x y z sq. unfold game_of. cbn.
  rewrite lookup_fmap. destruct (board g !! (x, y, z)); cbn; [|done].
  intros [= <-]. done.
Qed.

Lemma levels_ok_move g p : wf g → levels_ok g → levels_ok (game_of (move p g)).
Proof.
  intros Hwf Hl. destruct (move_cases g p Hwf) as [| | |sq st evs Hz Hsq Hv]; try done.
  intros x y z sq'. unfold game_of. cbn [fst snd board move_count].
  rewrite lookup_placed. case_decide as Hc.
  - subst p. cbn in Hz. intros _ _. unfold current_level in Hz.
    pose proof (Z.mul_div_le (move_count g) SQUARES_PER_LEVEL eq_refl). lia.
  - intros H1 H2. specialize (Hl x y z sq' H1 H2). lia.
Qed.

Lemma reachable_inv g : reachable g → wf g ∧ levels_ok g.
Proof.
  induction 1 as [choice fp|g choice fp _ [[IHb IHs] IHl]|g p _ [IHw IHl]].
  - split; [apply wf_init|]. unfold Game_init. apply levels_ok_reset.
  - split; [apply wf_reset; exact IHb|]. apply levels_ok_reset.
  - split; [apply wf_move; exact IHw|]. apply levels_ok_move; assumption.
Qed.

(** ** Failing moves *)

(** C1. On a position of the cube, [move] raises the wrong-level
    error exactly when [z] is not the current level, the square-taken
    error exactly when [z] is the current level and the square there
    is not blank, and returns normally in every other case. *)
Theorem move_fails_iff g x y z :
  reachable g → 0 ≤ x ≤ 2 → 0 ≤ y ≤ 2 → 0 ≤ z ≤ 2 →
  (result_of (move (x, y, z) g) = Raise (ValueError "Wrong level")
   ↔ z ≠ current_level g)
  ∧ (result_of (move (x, y, z) g) = Raise (ValueError "Square taken")
     ↔ z = current_level g
       ∧ ∃ sq, board g !! (x, y, z) = Some sq ∧ value sq ≠ BLANK)
  ∧ (result_of (move (x, y, z) g) ≠ Raise (ValueError "Wrong level") →
     result_of (move (x, y, z) g) ≠ Raise (ValueError "Square taken") →
     result_of (move (x, y, z) g) = Return ()).
Proof.
  intros Hr Hx Hy Hz. destruct (reachable_inv g Hr) as [Hwf _].
  assert (is_Some (board g !! (x, y, z))) as Hcell.
  { apply board_ok_lookup; [apply Hwf|]. by apply elem_of_iter_xyz. }
  destruct (move_cases g (x, y, z) Hwf) as [Hl|Hl Hn|sq Hl Hsq Hv|sq st evs Hl Hsq Hv];
    cbn [snd] in Hl; unfold result_of; cbn [fst].
  - split_and!; [done| |done].
    split; [discriminate|]. by intros [? _].
  - rewrite Hn in Hcell. by destruct Hcell.
  - split_and!; [| |done].
    + split; [discriminate|done].
    + split; [intros _; eauto|done].
  - split_and!; [| |done].
    + split; [discriminate|done].
    + split; [discriminate|]. intros (_ & sq' & Hsq' & Hv'). congruence.
Qed.

(** C2. A call of [move] that raises one of its two errors leaves the
    game as it was, every attribute of it, and sends no signal. *)
Theorem move_failure_changes_nothing g p msg :
  reachable g →
  result_of (move p g) = Raise (ValueError msg) →
  game_of (move p g) = g ∧ sent_by (move p g) = [].
Proof.
  intros Hr. destruct (reachable_inv g Hr) as [Hwf _].
  destruct (move_cases g p Hwf); unfold result_of, game_of, sent_by; cbn;
    done.
Qed.

(** C10. With [z] the current level and [x] or [y] off the board,
    [move] raises [KeyError], none of its own two errors, and the game
    is as it was. *)
Theorem move_off_board_key_error g x y z :
  reachable g → z = current_level g → ¬ (0 ≤ x ≤ 2 ∧ 0 ≤ y ≤ 2) →
  move (x, y, z) g = (Raise KeyError, g, []).
Proof.
  intros Hr Hz Hxy. destruct (reachable_inv g Hr) as [[Hb _] _].
  apply move_key_error; [done|].
  apply eq_None_not_Some. rewrite board_ok_lookup by done.
  rewrite elem_of_iter_xyz. tauto.
Qed.

(** ** Successful moves *)

Lemma other_player_ne p : other_player p ≠ p.
Proof. by destruct p. Qed.

(** C9. A successful move leaves every square but its own as it was,
    and leaves the score of the player who did not move and
    [first_player] as they were. *)
Theorem move_frame g p g' evs :
  reachable g →
  move p g = (Return (), g', evs) →
  (∀ c, c ≠ p → board g' !! c = board g !! c)
  ∧ scores g' !! other_player (current_player g)
    = scores g !! other_player (current_player g)
  ∧ first_player g' = first_player g.
Proof.
  intros Hr Hm. destruct (reachable_inv g Hr) as [Hwf _].
  destruct (move_cases g p Hwf) as [| | |sq st evs' Hl Hsq Hv]; try discriminate.
  set (points := Zsum _) in Hm. clearbody points.
  injection Hm as <- _. split_and!.
  - intros c Hc. change (board (placed g p) !! c = board g !! c).
    rewrite lookup_placed. by rewrite decide_False.
  - change (awarded (scores g) (current_player g) points
              !! other_player (current_player g)
            = scores g !! other_player (current_player g)).
    unfold awarded. case_bool_decide; [|done].
    destruct (scores g !! current_player g); [|done].
    rewrite lookup_insert_ne; [done|]. intros E. by apply (other_player_ne (current_player g)).
  - done.
Qed.

(** ** Scoring *)

Lemma Zsum_fmap_ext {A} (f h : A → Z) (l : list A) :
  Forall (λ a, f a = h a) l → Zsum (f <$> l) = Zsum (h <$> l).
Proof.
  induction 1 as [|a l Ha _ IH]; [done|].
  rewrite !fmap_cons. unfold Zsum in *. cbn [foldr]. by rewrite Ha, IH.
Qed.

(** One round of the loop adds what the path is worth, as long as no
    square above the level of the move belongs to the mover. *)
Lemma round_points_worth b cp p path :
  length path = Z.to_nat SIZE →
  (∀ c : position, p.2 < c.2 → owned b cp c = false) →
  round_points b cp p path = path_worth b cp p path.
Proof.
  intros Hlen Habove.
  destruct path as [|c1 [|c2 [|c3 [|]]]]; try discriminate Hlen.
  unfold round_points, path_worth. destruct c1 as [[x_ y_] z_].
  case_bool_decide as Hz.
  { cbn [forallb]. rewrite (Habove (x_, y_, z_) Hz). cbn.
    by rewrite andb_false_r. }
  case_bool_decide as Hin.
  { by rewrite bool_decide_eq_false_2. }
  rewrite (bool_decide_eq_true_2 (_ ∈ _) Hin).
  cbn [tally forallb andb].
  destruct (owned b cp (x_, y_, z_)), (owned b cp c2), (owned b cp c3),
    (is_special b (x_, y_, z_)), (is_special b c2), (is_special b c3);
    reflexivity.
Qed.

Lemma levels_ok_above g p c :
  levels_ok g → p.2 = current_level g → p.2 < c.2 →
  owned (board (placed g p)) (current_player g) c = false.
Proof.
  intros Hl Hp Hc. unfold owned. rewrite lookup_placed.
  rewrite decide_False by (intros ->; lia).
  destruct c as [[x y] z]. cbn [snd] in Hc.
  destruct (board g !! (x, y, z)) as [sq|] eqn:Hsq; [|done].
  apply bool_decide_eq_false_2. intros Hv.
  assert (SQUARES_PER_LEVEL * z < move_count g) as Hlt.
  { apply (Hl x y z sq Hsq). rewrite Hv. discriminate. }
  unfold current_level in Hp.
  pose proof (Z.mod_pos_bound (move_count g) SQUARES_PER_LEVEL eq_refl).
  pose proof (Z.div_mod (move_count g) SQUARES_PER_LEVEL).
  change SQUARES_PER_LEVEL with 9 in *. lia.
Qed.

(** C3. A successful move raises the score of the mover by the sum,
    over the winning paths through the new square that the mover owns
    entirely, of 2 for a path of special squares and 1 for any other;
    the entries of the table are different lines, so no line enters
    the sum twice. *)
Theorem move_points_earned g p g' evs :
  reachable g →
  move p g = (Return (), g', evs) →
  (∃ before after,
     scores g !! current_player g = Some before
     ∧ scores g' !! current_player g = Some after
     ∧ after - before = points_due (board g') (current_player g) p)
  ∧ ∀ (i j : nat) path path',
      _winning_paths !! i = Some path → _winning_paths !! j = Some path' →
      same_cells path path' → i = j.
Proof.
  intros Hr Hm. destruct (reachable_inv g Hr) as [Hwf Hlv].
  split; [|apply winning_paths_distinct].
  destruct (move_cases g p Hwf) as [| | |sq st evs' Hl Hsq Hv]; try discriminate.
  assert (Zsum (round_points (board (placed g p)) (current_player g) p
                  <$> _winning_paths)
          = points_due (board (placed g p)) (current_player g) p) as Hpts.
  { apply Zsum_fmap_ext.
    eapply Forall_impl; [apply winning_paths_length|].
    intros path Hlen. apply round_points_worth; [done|].
    intros c Hc. by apply levels_ok_above. }
  rewrite Hpts in Hm. injection Hm as <- _.
  change (∃ before after,
            scores g !! current_player g = Some before
            ∧ awarded (scores g) (current_player g)
                (points_due (board (placed g p)) (current_player g) p)
                !! current_player g = Some after
            ∧ after - before
              = points_due (board (placed g p)) (current_player g) p).
  set (points := points_due _ _ _). clearbody points.
  assert (is_Some (scores g !! current_player g)) as [before Hbefore].
  { destruct Hwf as [_ [? ?]]. by destruct (current_player g). }
  unfold awarded. rewrite Hbefore. case_bool_decide as Hpoints.
  - exists before, (before + points). rewrite lookup_insert_eq.
    split_and!; [done..|lia].
  - exists before, before. split_and!; [done..|]. lia.
Qed.

(** ** Games played from a reset *)

Lemma move_returns g p g' evs :
  wf g → move p g = (Return (), g', evs) →
  ∃ sq, p.2 = current_level g ∧ board g !! p = Some sq ∧ value sq = BLANK
        ∧ board g' = board (placed g p)
        ∧ move_count g' = move_count g + 1
        ∧ first_player g' = first_player g.
Proof.
  intros Hwf Hm.
  destruct (move_cases g p Hwf) as [| | |sq st evs' Hl Hsq Hv]; try discriminate.
  injection Hm as <- _. exists sq. split_and!; done.
Qed.

Lemma played_reset choice fp g :
  board_ok g → played [] (game_of (reset choice fp g)).
Proof.
  intros Hb. split.
  - by apply wf_reset.
  - by rewrite reset_run.
  - constructor.
  - intros c Hc. by apply not_elem_of_nil in Hc.
  - intros c sq. rewrite reset_run. unfold game_of. cbn [fst snd board].
    rewrite lookup_fmap. destruct (board g !! c); cbn; [|done].
    intros [= <-]. cbn. split; [done|]. intros Hc. by apply not_elem_of_nil in Hc.
  - intros c sq. rewrite reset_run. unfold game_of. cbn [fst snd board].
    rewrite lookup_fmap. destruct (board g !! c); cbn; [|done].
    intros [= <-]. cbn. split; [done|]. intros (i & Hi & _).
    by rewrite lookup_nil in Hi.
Qed.

Lemma played_move ms g m g' evs :
  played ms g → move m g = (Return (), g', evs) → played (ms ++ [m]) g'.
Proof.
  intros [Hwf Hcount Hnd Hon Hval Hsp] Hm.
  pose proof (wf_move g m Hwf) as Hwf'. rewrite Hm in Hwf'.
  destruct (move_returns g m g' evs Hwf Hm) as (sq & Hl & Hsq & Hv & Hb' & Hc' & _).
  assert (m ∉ ms) as Hfresh.
  { intros Hin. apply (Hval m sq Hsq) in Hin. done. }
  split.
  - exact Hwf'.
  - rewrite Hc', Hcount, length_app. cbn. lia.
  - apply NoDup_app. split_and!; [done| |apply NoDup_singleton].
    intros c Hc Hc'' . apply list_elem_of_singleton in Hc''. by subst.
  - intros c Hc. apply elem_of_app in Hc as [Hc|Hc]; [by apply Hon|].
    apply list_elem_of_singleton in Hc. subst c.
    apply (board_ok_lookup g); [apply Hwf|]. by rewrite Hsq.
  - intros c sq'. rewrite Hb', lookup_placed. case_decide as Hcm.
    + subst c. rewrite Hsq. cbn. intros [= <-]. cbn.
      split; [|done]. intros _. apply elem_of_app. right. by left.
    + intros Hc. rewrite (Hval c sq' Hc), elem_of_app, list_elem_of_singleton.
      split; [by left|]. intros [Hin| ->]; [done|]. by destruct Hcm.
  - intros c sq'. rewrite Hb', lookup_placed. case_decide as Hcm.
    + subst c. rewrite Hsq. cbn. intros [= <-]. cbn.
      unfold current_move_special. rewrite bool_decide_eq_true, Hcount. split.
      * intros Hs. exists (length ms). split; [|done].
        by rewrite list_lookup_middle.
      * intros (i & Hi & Hs).
        destruct (decide (i < length ms)%nat) as [Hlt|Hge].
        -- rewrite lookup_app_l in Hi by done.
           exfalso. apply Hfresh. by eapply list_elem_of_lookup_2.
        -- assert (i = length ms) as ->; [|done].
           apply lookup_lt_Some in Hi. rewrite length_app in Hi. cbn in Hi. lia.
    + intros Hc. rewrite (Hsp c sq' Hc). split.
      * intros (i & Hi & Hs). exists i. split; [|done].
        by apply lookup_app_l_Some.
      * intros (i & Hi & Hs). exists i. split; [|done].
        apply lookup_app_Some in Hi as [Hi|[_ Hi]]; [done|].
        apply list_elem_of_lookup_2, list_elem_of_singleton in Hi. done.
Qed.

Lemma play_app ms1 ms2 g :
  play (ms1 ++ ms2) g = play ms1 g ≫= play ms2.
Proof.
  revert g. induction ms1 as [|m ms1 IH]; intros g; [done|].
  cbn [app play]. destruct (move m g) as [[[[]|e] g1] evs]; [|done].
  apply IH.
Qed.

Lemma play_played g0 ms g' :
  played [] g0 → play ms g0 = Some g' → played ms g'.
Proof.
  intros H0. revert g'. induction ms as [|m ms IH] using rev_ind; intros g'.
  - by intros [= <-].
  - rewrite play_app. destruct (play ms g0) as [g1|] eqn:Hg1; [|done].
    cbn [mbind option_bind play].
    destruct (move m g1) as [[[[]|e] g2] evs] eqn:Hm; [|done].
    intros [= <-]. eapply played_move; [by apply IH|done].
Qed.

Lemma play_from_reset g0 ms g' :
  just_reset g0 → play ms g0 = Some g' → played ms g'.
Proof.
  intros Hr. apply play_played. destruct Hr as [choice fp|g choice fp Hr].
  - unfold Game_init. apply played_reset, board_ok_before_reset.
  - apply played_reset. by destruct (reachable_inv g Hr) as [[Hb _] _].
Qed.

(** C5. After any run of successful moves from a reset, a square is
    special exactly when it is taken and the move that took it was
    made at a move count which, modulo 9, is one of 1, 2, 6 and 7. *)
Theorem special_iff_taken_on_special_move g0 ms g' c sq :
  just_reset g0 →
  play ms g0 = Some g' →
  board g' !! c = Some sq →
  special sq = true ↔
  value sq ≠ BLANK
  ∧ ∃ ms1 ms2 g1,
      ms = ms1 ++ c :: ms2
      ∧ play ms1 g0 = Some g1
      ∧ move_count g1 `mod` SQUARES_PER_LEVEL ∈ SPECIAL_SQUARES.
Proof.
  intros Hr Hplay Hc.
  pose proof (play_from_reset g0 ms g' Hr Hplay) as Hp.
  rewrite (played_special ms g' Hp c sq Hc). split.
  - intros (i & Hi & Hs). split.
    + apply (played_value ms g' Hp c sq Hc). by eapply list_elem_of_lookup_2.
    + pose proof (take_drop_middle ms i c Hi) as Hms.
      rewrite <- Hms, play_app in Hplay.
      destruct (play (take i ms) g0) as [g1|] eqn:Hg1; [|done].
      exists (take i ms), (drop (S i) ms), g1. split_and!; [done..|].
      pose proof (play_from_reset g0 _ g1 Hr Hg1) as Hp1.
      rewrite (played_count _ _ Hp1), length_take.
      apply lookup_lt_Some in Hi. by rewrite Nat.min_l by lia.
  - intros (_ & ms1 & ms2 & g1 & -> & Hg1 & Hs).
    pose proof (play_from_reset g0 _ g1 Hr Hg1) as Hp1.
    exists (length ms1). split; [by rewrite list_lookup_middle|].
    by rewrite <- (played_count _ _ Hp1).
Qed.

(** C8. After 27 successful moves from a reset the game is done and
    each of the 27 squares is taken. *)
Theorem full_after_27_moves g0 ms g' :
  just_reset g0 →
  length ms = 27%nat →
  play ms g0 = Some g' →
  done g' = true
  ∧ ∀ c, c ∈ iter_xyz → ∃ sq, board g' !! c = Some sq ∧ value sq ≠ BLANK.
Proof.
  intros Hr Hlen Hplay.
  pose proof (play_from_reset g0 ms g' Hr Hplay) as Hp. split.
  - unfold done. apply bool_decide_eq_true.
    by rewrite (played_count _ _ Hp), Hlen.
  - assert (ms ≡ₚ iter_xyz) as Hperm.
    { apply submseteq_length_Permutation.
      - apply NoDup_submseteq; [apply (played_nodup _ _ Hp)|].
        apply (played_on_board _ _ Hp).
      - by rewrite Hlen. }
    intros c Hc.
    destruct (proj2 (board_ok_lookup g' c (proj1 (played_wf _ _ Hp))) Hc)
      as [sq Hsq].
    exists sq. split; [done|].
    apply (played_value _ _ Hp c sq Hsq). by rewrite Hperm.
Qed.

(** * Sample runs *)

(** The first move of a game: three signals, no score. *)
Example first_move_run :
  result_of (move (0, 0, 0) new_game) = Return ()
  ∧ signal <$> sent_by (move (0, 0, 0) new_game)
    = ["BOARD CHANGED"; "PLAYER CHANGED"; "STATUS CHANGED"]%string
  ∧ move_count (game_of (move (0, 0, 0) new_game)) = 1.
Proof. vm_compute. repeat split. Qed.

(** RED completes the row [y = 0] of level 0; one of its squares is
    not special, so the row is worth one point. *)
Example row_completed_run :
  sent_by (move (2, 0, 0) after_opening)
  = [ mkEvent "BOARD CHANGED" None;
      mkEvent "SCORE CHANGED" (Some [(0, 0, 0); (1, 0, 0); (2, 0, 0)]);
      mkEvent "PLAYER CHANGED" None;
      mkEvent "STATUS CHANGED" None ]
  ∧ scores (game_of (move (2, 0, 0) after_opening)) !! RED = Some 1
  ∧ status (game_of (move (2, 0, 0) after_opening))
    = [(STATUS_POINTS_EARNED, [ArgInt 1; ArgStr EmptyString])].
Proof. vm_compute. repeat split. Qed.

(** A square that is taken, and a level that is not the current one. *)
Example refused_moves_run :
  result_of (move (0, 0, 0) after_opening) = Raise (ValueError "Square taken")
  ∧ result_of (move (2, 2, 1) after_opening) = Raise (ValueError "Wrong level").
Proof. vm_compute. repeat split. Qed.

(** The last move of a level announces the next one. *)
Example level_filled_run :
  ∃ g, play (take 9 row_by_row) new_game = Some g
       ∧ current_level g = 1
       ∧ last (status g) = Some (STATUS_ONLY_UP, []).
Proof. eexists. split; [vm_compute; reflexivity|]. vm_compute. split; reflexivity. Qed.

(** * The theorems at work on concrete games *)

Lemma move_fails_iff_witness :
  (result_of (move (1, 1, 0) new_game) = Raise (ValueError "Wrong level")
   ↔ 0 ≠ current_level new_game)
  ∧ (result_of (move (1, 1, 0) new_game) = Raise (ValueError "Square taken")
     ↔ 0 = current_level new_game
       ∧ ∃ sq, board new_game !! (1, 1, 0) = Some sq ∧ value sq ≠ BLANK)
  ∧ (result_of (move (1, 1, 0) new_game) ≠ Raise (ValueError "Wrong level") →
     result_of (move (1, 1, 0) new_game) ≠ Raise (ValueError "Square taken") →
     result_of (move (1, 1, 0) new_game) = Return ()).
Proof.
  apply (move_fails_iff new_game 1 1 0); [apply reachable_init|lia..].
Defined.

Lemma move_failure_changes_nothing_witness :
  game_of (move (1, 1, 2) new_game) = new_game
  ∧ sent_by (move (1, 1, 2) new_game) = [].
Proof.
  apply (move_failure_changes_nothing new_game (1, 1, 2) "Wrong level").
  - apply reachable_init.
  - vm_compute. reflexivity.
Defined.

Lemma move_off_board_key_error_witness :
  move (3, 1, 0) new_game = (Raise KeyError, new_game, []).
Proof.
  apply (move_off_board_key_error new_game 3 1 0).
  - apply reachable_init.
  - vm_compute. reflexivity.
  - lia.
Defined.

Lemma reachable_after_opening : reachable after_opening.
Proof. repeat apply reachable_move. apply reachable_init. Qed.

Lemma move_frame_witness :
  (∀ c, c ≠ (2, 0, 0) →
        board (game_of (move (2, 0, 0) after_opening)) !! c
        = board after_opening !! c)
  ∧ scores (game_of (move (2, 0, 0) after_opening))
      !! other_player (current_player after_opening)
    = scores after_opening !! other_player (current_player after_opening)
  ∧ first_player (game_of (move (2, 0, 0) after_opening))
    = first_player after_opening.
Proof.
  apply (move_frame after_opening (2, 0, 0) _
           (sent_by (move (2, 0, 0) after_opening))).
  - apply reachable_after_opening.
  - vm_compute. reflexivity.
Defined.

Lemma move_points_earned_witness :
  (∃ before after,
     scores after_opening !! current_player after_opening = Some before
     ∧ scores (game_of (move (2, 0, 0) after_opening))
         !! current_player after_opening = Some after
     ∧ after - before
       = points_due (board (game_of (move (2, 0, 0) after_opening)))
           (current_player after_opening) (2, 0, 0))
  ∧ ∀ (i j : nat) path path',
      _winning_paths !! i = Some path → _winning_paths !! j = Some path' →
      same_cells path path' → i = j.
Proof.
  apply (move_points_earned after_opening (2, 0, 0) _
           (sent_by (move (2, 0, 0) after_opening))).
  - apply reachable_after_opening.
  - vm_compute. reflexivity.
Defined.

Lemma special_iff_taken_on_special_move_witness :
  special (mkSquare (0, 1, 0) (Some BLUE) true) = true ↔
  value (mkSquare (0, 1, 0) (Some BLUE) true) ≠ BLANK
  ∧ ∃ ms1 ms2 g1,
      opening = ms1 ++ (0, 1, 0) :: ms2
      ∧ play ms1 new_game = Some g1
      ∧ move_count g1 `mod` SQUARES_PER_LEVEL ∈ SPECIAL_SQUARES.
Proof.
  apply (special_iff_taken_on_special_move new_game opening after_opening
           (0, 1, 0) (mkSquare (0, 1, 0) (Some BLUE) true)).
  - apply just_constructed.
  - vm_compute. reflexivity.
  - vm_compute. reflexivity.
Defined.

Lemma full_after_27_moves_witness :
  done (foldl (λ g p, game_of (move p g)) new_game row_by_row) = true
  ∧ ∀ c, c ∈ iter_xyz →
      ∃ sq, board (foldl (λ g p, game_of (move p g)) new_game row_by_row) !! c
            = Some sq
            ∧ value sq ≠ BLANK.
Proof.
  apply (full_after_27_moves new_game row_by_row).
  - apply just_constructed.
  - vm_compute. reflexivity.
  - vm_compute. reflexivity.
Defined.

(** * Further properties of the game model *)

(** ** Every reachable game has a history *)

Lemma played_init choice fp : played [] (game_of (Game_init choice fp)).
Proof. unfold Game_init. apply played_reset, board_ok_before_reset. Qed.

Lemma in_order_snoc ms p :
  in_order ms → p.2 = Z.of_nat (length ms) `div` SQUARES_PER_LEVEL →
  in_order (ms ++ [p]).
Proof.
  intros Hms Hp i c Hi. apply lookup_app_Some in Hi as [Hi|[Hge Hi]].
  - by apply Hms.
  - apply list_lookup_singleton_Some in Hi as [Hi ->].
    by replace i with (length ms) by lia.
Qed.

Lemma reachable_history g :
  reachable g → ∃ ms, played ms g ∧ in_order ms.
Proof.
  induction 1 as [choice fp|g choice fp Hr _|g p _ (ms & Hp & Ho)].
  - exists []. split; [apply played_init|]. intros i c Hi. by rewrite lookup_nil in Hi.
  - exists []. split.
    + apply played_reset. by destruct (reachable_inv g Hr) as [[Hb _] _].
    + intros i c Hi. by rewrite lookup_nil in Hi.
  - pose proof (played_wf _ _ Hp) as Hwf.
    destruct (move p g) as [[[[]|e] g'] evs] eqn:Hm.
    + exists (ms ++ [p]). split; [by eapply played_move|].
      apply in_order_snoc; [done|].
      destruct (move_returns g p g' evs Hwf Hm) as (sq & Hl & _).
      rewrite Hl. unfold current_level. by rewrite (played_count _ _ Hp).
    + exists ms. split; [|done].
      destruct (move_cases g p Hwf) as [| | |]; try discriminate;
        injection Hm as _ <- _; done.
Qed.

(** ** Invariants of reachable games *)

(** X1. The move count of a reachable game lies between 0 and
    [TOTAL_SQUARES], so its level lies between 0 and [SIZE]. *)
Theorem reachable_move_count_bounds g :
  reachable g →
  0 ≤ move_count g ≤ TOTAL_SQUARES ∧ 0 ≤ current_level g ≤ SIZE.
Proof.
  intros Hr. destruct (reachable_history g Hr) as (ms & Hp & _).
  assert (length ms ≤ 27)%nat as Hlen.
  { change 27%nat with (length iter_xyz).
    apply submseteq_length, NoDup_submseteq.
    - apply (played_nodup _ _ Hp).
    - apply (played_on_board _ _ Hp). }
  assert (0 ≤ move_count g ≤ 27) as Hmc.
  { rewrite (played_count _ _ Hp). lia. }
  split; [exact Hmc|]. unfold current_level.
  change SQUARES_PER_LEVEL with 9. change SIZE with 3.
  split; [apply Z.div_pos; lia|].
  apply Z.div_le_upper_bound; lia.
Qed.

(** X2. In a reachable game the number of taken squares is the move
    count. *)
Theorem reachable_taken_count g :
  reachable g → Z.of_nat (size (taken (board g))) = move_count g.
Proof.
  intros Hr. destruct (reachable_history g Hr) as (ms & Hp & _).
  rewrite (played_count _ _ Hp). f_equal.
  rewrite <- (size_dom (D := gset position)).
  assert (dom (taken (board g)) = list_to_set ms) as ->.
  { apply set_eq. intros c. rewrite elem_of_dom, elem_of_list_to_set.
    unfold taken. split.
    - intros [sq Hsq]. apply map_lookup_filter_Some in Hsq as [Hsq Hv].
      by apply (played_value _ _ Hp c sq Hsq).
    - intros Hc.
      destruct (proj2 (board_ok_lookup g c (proj1 (played_wf _ _ Hp))))
        as [sq Hsq]; [by apply (played_on_board _ _ Hp)|].
      exists sq. apply map_lookup_filter_Some. split; [done|].
      by apply (played_value _ _ Hp c sq Hsq). }
  apply size_list_to_set, (played_nodup _ _ Hp).
Qed.

(** X3. In a reachable game a blank square is never special. *)
Theorem reachable_blank_not_special g c sq :
  reachable g → board g !! c = Some sq → value sq = BLANK → special sq = false.
Proof.
  intros Hr Hc Hv. destruct (reachable_history g Hr) as (ms & Hp & _).
  apply not_true_is_false. intros Hs.
  apply (played_special _ _ Hp c sq Hc) in Hs as (i & Hi & _).
  apply list_elem_of_lookup_2, (played_value _ _ Hp c sq Hc) in Hi. done.
Qed.

Lemma level_cells_length z : 0 ≤ z ≤ 2 → length (level_cells z) = 9%nat.
Proof.
  intros Hz. assert (z = 0 ∨ z = 1 ∨ z = 2) as [-> | [-> | ->]] by lia;
    reflexivity.
Qed.

(** X4. The only way is up: in a reachable game every square below
    the current level is taken and every square above it is blank. *)
Theorem reachable_levels g x y z sq :
  reachable g → board g !! (x, y, z) = Some sq →
  (z < current_level g → value sq ≠ BLANK)
  ∧ (current_level g < z → value sq = BLANK).
Proof.
  intros Hr Hc. destruct (reachable_history g Hr) as (ms & Hp & Ho).
  pose proof (played_count _ _ Hp) as Hcount.
  assert ((x, y, z) ∈ iter_xyz) as Hcube.
  { apply (board_ok_lookup g); [apply (played_wf _ _ Hp)|]. by rewrite Hc. }
  pose proof (proj1 (elem_of_iter_xyz x y z) Hcube) as (_ & _ & Hz).
  unfold current_level. rewrite Hcount. change SQUARES_PER_LEVEL with 9.
  split.
  - intros Hlt. apply (played_value _ _ Hp _ sq Hc).
    set (k := Z.to_nat z).
    set (seg := take 9 (drop (9 * k) ms)).
    assert (9 * k + 9 ≤ length ms)%nat as Hlen.
    { pose proof (Z.mul_div_le (Z.of_nat (length ms)) 9 eq_refl). lia. }
    assert (seg ⊆+ level_cells z) as Hsub.
    { apply NoDup_submseteq.
      - eapply sublist_NoDup; [|apply sublist_take].
        eapply sublist_NoDup; [|apply sublist_drop].
        apply (played_nodup _ _ Hp).
      - intros c Hin. apply list_elem_of_lookup in Hin as [j Hj].
        unfold seg in Hj. apply lookup_take_Some in Hj as [Hj Hj9].
        rewrite lookup_drop in Hj.
        apply list_elem_of_filter. split.
        + rewrite (Ho _ _ Hj). change SQUARES_PER_LEVEL with 9.
          symmetry. apply Z.div_unique with (r := Z.of_nat j); lia.
        + apply (played_on_board _ _ Hp). by eapply list_elem_of_lookup_2. }
    assert (seg ≡ₚ level_cells z) as Hperm.
    { apply submseteq_length_Permutation; [done|].
      rewrite level_cells_length by done.
      unfold seg. rewrite length_take, length_drop. lia. }
    assert ((x, y, z) ∈ seg) as Hin.
    { rewrite Hperm. apply list_elem_of_filter. by split. }
    unfold seg in Hin.
    by apply subseteq_take, subseteq_drop in Hin.
  - intros Hgt. destruct (decide (value sq = BLANK)) as [|Hv]; [done|].
    apply (played_value _ _ Hp _ sq Hc), list_elem_of_lookup in Hv as [i Hi].
    pose proof (Ho _ _ Hi) as Hzi. cbn [snd] in Hzi.
    apply lookup_lt_Some in Hi.
    change SQUARES_PER_LEVEL with 9 in Hzi.
    assert (Z.of_nat i `div` 9 ≤ Z.of_nat (length ms) `div` 9)
      by (apply Z.div_le_mono; lia).
    lia.
Qed.

(** ** What a move leaves behind *)

(** X5. A successful move finds its square blank and leaves it to the
    player whose turn it was, special when that turn was special; the
    move count goes up by one. *)
Theorem move_takes_square g p g' evs :
  reachable g →
  move p g = (Return (), g', evs) →
  ∃ sq, board g !! p = Some sq
        ∧ value sq = BLANK
        ∧ board g' !! p
          = Some (mkSquare (xyz sq) (Some (current_player g))
                           (current_move_special g))
        ∧ move_count g' = move_count g + 1.
Proof.
  intros Hr Hm. destruct (reachable_inv g Hr) as [Hwf _].
  destruct (move_returns g p g' evs Hwf Hm) as (sq & _ & Hsq & Hv & Hb & Hc & _).
  exists sq. split_and!; [done..| |done].
  rewrite Hb, lookup_placed, decide_True by done. by rewrite Hsq.
Qed.

(** X6. The players alternate: after a successful move it is the turn
    of the other player. *)
Theorem move_passes_turn g p g' evs :
  reachable g →
  move p g = (Return (), g', evs) →
  current_player g' = other_player (current_player g)
  ∧ current_player g' ≠ current_player g.
Proof.
  intros Hr Hm. destruct (reachable_inv g Hr) as [Hwf _].
  destruct (move_returns g p g' evs Hwf Hm) as (sq & _ & _ & _ & _ & Hc & Hf).
  assert (current_player g' = other_player (current_player g)) as Hturn.
  { unfold current_player. rewrite Hc, Hf.
    assert ((move_count g + 1) `mod` 2 ≠ 0 ↔ move_count g `mod` 2 = 0)
      as Hpar by (Z.div_mod_to_equations; lia).
    destruct (decide (move_count g `mod` 2 = 0)) as [He|Ho].
    - rewrite (bool_decide_eq_true_2 _ (proj2 Hpar He)).
      by rewrite (bool_decide_eq_false_2 (move_count g `mod` 2 ≠ 0))
        by (intros Hn; by apply Hn).
    - rewrite (bool_decide_eq_true_2 _ Ho).
      rewrite (bool_decide_eq_false_2 ((move_count g + 1) `mod` 2 ≠ 0))
        by (intros Hn; apply Ho; by apply Hpar).
      by destruct (first_player g). }
  split; [done|]. rewrite Hturn. apply other_player_ne.
Qed.


(** ** Scores *)

Lemma round_points_nonneg b cp p path : 0 ≤ round_points b cp p path.
Proof.
  unfold round_points. destruct path as [|[[x_ y_] z_] rest]; [done|].
  repeat case_bool_decide; done.
Qed.

Lemma Zsum_nonneg l : Forall (λ n, 0 ≤ n) l → 0 ≤ Zsum l.
Proof. induction 1; unfold Zsum in *; cbn [foldr]; lia. Qed.

Lemma awarded_lookup_le sc cp points q s :
  0 ≤ points → sc !! q = Some s →
  ∃ s', awarded sc cp points !! q = Some s' ∧ s ≤ s'.
Proof.
  intros Hp Hq. unfold awarded. case_bool_decide; [|by exists s].
  destruct (sc !! cp) as [old|] eqn:Hcp; [|by exists s].
  destruct (decide (cp = q)) as [->|Hne].
  - rewrite lookup_insert_eq. exists (old + points). split; [done|].
    rewrite Hq in Hcp. injection Hcp as ->. lia.
  - rewrite lookup_insert_ne by done. by exists s.
Qed.

Lemma move_scores_awarded g p :
  reachable g →
  ∃ points, 0 ≤ points
            ∧ scores (game_of (move p g))
              = awarded (scores g) (current_player g) points.
Proof.
  intros Hr. destruct (reachable_inv g Hr) as [Hwf _].
  destruct (move_cases g p Hwf); [by exists 0..|].
  set (points := Zsum _). exists points. split; [|reflexivity].
  apply Zsum_nonneg, Forall_fmap, Forall_forall.
  intros path _. apply round_points_nonneg.
Qed.

(** X8. No call of [move] lowers a score, whether it returns or
    raises. *)
Theorem move_never_lowers_score g p q s :
  reachable g → scores g !! q = Some s →
  ∃ s', scores (game_of (move p g)) !! q = Some s' ∧ s ≤ s'.
Proof.
  intros Hr Hq.
  destruct (move_scores_awarded g p Hr) as (points & Hpoints & ->).
  by apply awarded_lookup_le.
Qed.

(** X9. In a reachable game both players have a score, and neither
    score is negative. *)
Theorem reachable_scores_nonneg g q :
  reachable g → ∃ s, scores g !! q = Some s ∧ 0 ≤ s.
Proof.
  intros Hr. revert q.
  assert (∀ choice fp g0 q,
            ∃ s, scores (game_of (reset choice fp g0)) !! q = Some s ∧ 0 ≤ s)
    as Hreset.
  { intros choice fp g0 q. rewrite reset_run. unfold game_of. cbn [fst snd scores].
    exists 0. split; [|done]. destruct q.
    - by rewrite lookup_insert_ne, lookup_insert_eq.
    - by rewrite lookup_insert_eq. }
  induction Hr as [choice fp|g choice fp Hr _|g p Hr IH]; intros q.
  - unfold Game_init. apply Hreset.
  - apply Hreset.
  - destruct (IH q) as (s & Hs & Hpos).
    destruct (move_scores_awarded g p Hr) as (points & Hpoints & Heq).
    destruct (awarded_lookup_le (scores g) (current_player g) points q s
                Hpoints Hs) as (s' & Hs' & Hle).
    exists s'. rewrite Heq. split; [done|lia].
Qed.

(** ** The signals and the status of a move *)

Lemma winner_exact bd sc mc fp st r b :
  sc !! RED = Some r → sc !! BLUE = Some b →
  winner (mkGame bd sc mc fp st)
  = (Return (winner_of r b), mkGame bd sc mc fp st, []).
Proof.
  intros Hr Hb. unfold winner, scores_item, winner_of.
  rewrite !bind_run. cbn [scores]. rewrite Hr. cbv beta iota.
  rewrite !bind_run. cbn [scores]. rewrite Hb. cbv beta iota.
  by repeat case_bool_decide.
Qed.

Lemma _handle_tictactoe_exact g x y z old :
  Forall (λ path, Forall (λ c, is_Some (board g !! c)) path ∧ path ≠ [])
         _winning_paths →
  scores g !! current_player g = Some old →
  _handle_tictactoe (x, y, z) g
  = (Return (),
     mkGame (board g)
            (awarded (scores g) (current_player g)
               (Zsum (round_points (board g) (current_player g) (x, y, z)
                        <$> _winning_paths)))
            (move_count g) (first_player g)
            (status g
             ++ points_status
                  (Zsum (round_points (board g) (current_player g) (x, y, z)
                           <$> _winning_paths))),
     score_events
       (Zsum (round_points (board g) (current_player g) (x, y, z)
                <$> _winning_paths))
       (concat (round_included (board g) (current_player g) (x, y, z)
                  <$> _winning_paths))).
Proof.
  intros Hpaths Hold. unfold _handle_tictactoe.
  rewrite (bind_pure _ _ g _ (scan_loop g x y z _ 0 [] Hpaths)).
  rewrite Z.add_0_l, app_nil_l. unfold awarded, points_status, score_events.
  set (points := Zsum _). set (xyzs := concat _). clearbody points xyzs.
  case_bool_decide.
  - rewrite (bind_pure _ _ g (current_player g)) by reflexivity.
    rewrite (bind_pure _ _ g old) by (unfold scores_item; by rewrite Hold).
    rewrite Hold. reflexivity.
  - rewrite app_nil_r. by destruct g.
Qed.

Lemma move_exact g x y z sq :
  wf g →
  z = current_level g → board g !! (x, y, z) = Some sq → value sq = BLANK →
  ∃ r b points xyzs sc,
    points = Zsum (round_points (board (placed g (x, y, z)))
                     (current_player g) (x, y, z) <$> _winning_paths)
    ∧ xyzs = concat (round_included (board (placed g (x, y, z)))
                       (current_player g) (x, y, z) <$> _winning_paths)
    ∧ sc = awarded (scores g) (current_player g) points
    ∧ sc !! RED = Some r ∧ sc !! BLUE = Some b
    ∧ move (x, y, z) g
      = (Return (),
         mkGame (board (placed g (x, y, z))) sc
                (move_count g + 1) (first_player g)
                (points_status points
                 ++ level_status (move_count g + 1)
                 ++ end_status (move_count g + 1) r b),
         [mkEvent "BOARD CHANGED" None]
         ++ score_events points xyzs
         ++ [mkEvent "PLAYER CHANGED" None]
         ++ level_events (move_count g + 1)
         ++ [mkEvent "STATUS CHANGED" None]).
Proof.
  intros [Hb [Hred Hblue]] Hz H Hv.
  assert (is_Some (scores g !! current_player g)) as [old Hold].
  { by destruct (current_player g). }
  pose proof (_handle_tictactoe_exact (placed g (x, y, z)) x y z old
                (board_ok_paths _ (board_ok_placed g (x, y, z) Hb)) Hold)
    as Hrun.
  change (current_player (placed g (x, y, z))) with (current_player g) in Hrun.
  change (scores (placed g (x, y, z))) with (scores g) in Hrun.
  change (move_count (placed g (x, y, z))) with (move_count g) in Hrun.
  change (first_player (placed g (x, y, z))) with (first_player g) in Hrun.
  change (status (placed g (x, y, z))) with (@nil (string * list arg)) in Hrun.
  rewrite app_nil_l in Hrun.
  set (points := Zsum _) in *. set (xyzs := concat _) in *.
  set (sc := awarded (scores g) (current_player g) points) in *.
  destruct (scores_ok_awarded (scores g) (current_player g) points RED Hred)
    as [r Hr].
  destruct (scores_ok_awarded (scores g) (current_player g) points BLUE Hblue)
    as [b Hbl].
  fold sc in Hr, Hbl.
  exists r, b, points, xyzs, sc. split_and!; [reflexivity..|done|done|].
  pose proof (λ mc st, winner_exact (board (placed g (x, y, z))) sc mc
                         (first_player g) st r b Hr Hbl) as Hwin.
  set (b1 := board (placed g (x, y, z))) in *.
  clearbody sc points xyzs.
  unfold move.
  rewrite (bind_pure _ _ g (current_level g)) by reflexivity.
  rewrite bool_decide_eq_false_2 by (intros Hne; by apply Hne).
  rewrite (bind_pure _ _ g sq) by by apply board_item_run.
  rewrite bool_decide_eq_true_2 by done. cbn [negb].
  unfold update_square, status_append. unfold modify, gets, send.
  do 6 (rewrite bind_run; cbv beta iota).
  rewrite bind_run.
  change (_handle_tictactoe (x, y, z) _)
    with (_handle_tictactoe (x, y, z) (placed g (x, y, z))).
  rewrite Hrun. cbv beta iota. clearbody b1.
  do 3 (rewrite bind_run; cbv beta iota).
  cbn [move_count set_move_count board scores first_player status
       set_board set_status].
  unfold level_status, end_status, level_events.
  generalize (points_status points) (score_events points xyzs).
  intros st0 ev0.
  destruct (bool_decide (move_count g + 1 = TOTAL_SQUARES)) eqn:Hdone;
    destruct (bool_decide (_ `mod` _ = 0));
    destruct (bool_decide (0 < move_count g + 1));
    repeat (first
      [ rewrite bind_run
      | progress cbv beta iota delta
          [mret M_ret done andb negb set_move_count set_status set_board]
      | progress cbn [move_count status board scores first_player]
      | rewrite Hdone
      | rewrite Hwin; destruct (winner_of r b) ]);
    rewrite ?app_nil_r, <- ?app_assoc; reflexivity.
Qed.

Lemma tally_owned_all b cp path :
  length path = Z.to_nat SIZE →
  tally (owned b cp) path = SIZE ↔ Forall (λ c, owned b cp c = true) path.
Proof.
  intros Hlen.
  destruct path as [|c1 [|c2 [|c3 [|]]]]; try discriminate Hlen.
  cbn [tally]. rewrite !Forall_cons, Forall_nil.
  destruct (owned b cp c1), (owned b cp c2), (owned b cp c3);
    split; try done; intros H; try (by vm_compute in H);
    destruct H as (H1 & H2 & H3 & _); discriminate.
Qed.

Lemma round_included_completed b cp p path :
  length path = Z.to_nat SIZE →
  (∀ c : position, p.2 < c.2 → owned b cp c = false) →
  round_included b cp p path
  = if decide (p ∈ path ∧ Forall (λ c, owned b cp c = true) path)
    then path else [].
Proof.
  intros Hlen Habove. pose proof (tally_owned_all b cp path Hlen) as Hall.
  unfold round_included.
  destruct path as [|[[x_ y_] z_] rest]; [discriminate Hlen|].
  case_bool_decide as Hz.
  { rewrite decide_False; [done|]. intros [_ Hown].
    apply Forall_cons in Hown as [Hown _].
    by rewrite (Habove (x_, y_, z_) Hz) in Hown. }
  case_bool_decide as Hin.
  { rewrite decide_False; [done|]. by intros [? _]. }
  case_bool_decide as Hhits.
  - rewrite decide_True; [done|]. split; [done|]. by apply Hall.
  - rewrite decide_False; [done|]. intros [_ Hown]. by apply Hhits, Hall.
Qed.

Lemma concat_fmap_filter {A} (P : list A → Prop) `{!∀ l, Decision (P l)}
    (ls : list (list A)) :
  concat ((λ l, if decide (P l) then l else []) <$> ls) = concat (filter P ls).
Proof.
  induction ls as [|l ls IH]; [done|].
  rewrite fmap_cons, filter_cons. cbn [concat]. rewrite IH.
  by destruct (decide (P l)).
Qed.

Lemma elem_of_concat {A} (x : A) (ls : list (list A)) :
  x ∈ concat ls ↔ ∃ l, x ∈ l ∧ l ∈ ls.
Proof.
  induction ls as [|l ls IH]; cbn [concat].
  - split; [by intros ?%not_elem_of_nil|]. by intros (l & _ & ?%not_elem_of_nil).
  - rewrite elem_of_app, IH. split.
    + intros [Hx|(l' & Hx & Hl')]; [exists l; split; [done|by left]|].
      exists l'. split; [done|by right].
    + intros (l' & Hx & Hl'). apply elem_of_cons in Hl' as [->|Hl'];
        [by left|]. right. by exists l'.
Qed.

Lemma concat_fmap_ext {A B} (f h : A → list B) (l : list A) :
  Forall (λ a, f a = h a) l → concat (f <$> l) = concat (h <$> l).
Proof.
  induction 1 as [|a l Ha _ IH]; [done|].
  rewrite !fmap_cons. cbn [concat]. by rewrite Ha, IH.
Qed.

(** A successful move, with the points and the highlighted squares
    read off the board it leaves. *)
Lemma move_report g p g' evs :
  reachable g →
  move p g = (Return (), g', evs) →
  ∃ r b,
    scores g' !! RED = Some r ∧ scores g' !! BLUE = Some b
    ∧ status g'
      = points_status (points_due (board g') (current_player g) p)
        ++ level_status (move_count g')
        ++ end_status (move_count g') r b
    ∧ evs
      = [mkEvent "BOARD CHANGED" None]
        ++ score_events (points_due (board g') (current_player g) p)
             (concat (completed (board g') (current_player g) p))
        ++ [mkEvent "PLAYER CHANGED" None]
        ++ level_events (move_count g')
        ++ [mkEvent "STATUS CHANGED" None].
Proof.
  intros Hr Hm. destruct (reachable_inv g Hr) as [Hwf Hlv].
  destruct p as [[x y] z].
  destruct (move_returns g (x, y, z) g' evs Hwf Hm)
    as (sq & Hl & Hsq & Hv & _).
  destruct (move_exact g x y z sq Hwf Hl Hsq Hv)
    as (r & b & points & xyzs & sc & Hpoints & Hxyzs & Hsc & Hred & Hblue & Hrun).
  assert (points = points_due (board (placed g (x, y, z))) (current_player g)
                     (x, y, z)) as Hpoints'.
  { rewrite Hpoints. apply Zsum_fmap_ext.
    eapply Forall_impl; [apply winning_paths_length|].
    intros path Hlen. apply round_points_worth; [done|].
    intros c Hc. by apply levels_ok_above. }
  assert (xyzs = concat (completed (board (placed g (x, y, z)))
                           (current_player g) (x, y, z))) as Hxyzs'.
  { rewrite Hxyzs. unfold completed. rewrite <- concat_fmap_filter.
    apply concat_fmap_ext.
    eapply Forall_impl; [apply winning_paths_length|].
    intros path Hlen. apply round_included_completed; [done|].
    intros c Hc. by apply levels_ok_above. }
  clear Hpoints Hxyzs Hsc. subst points xyzs.
  rewrite Hrun in Hm. injection Hm as <- <-.
  exists r, b. split_and!; [exact Hred|exact Hblue|reflexivity|reflexivity].
Qed.

(** X10. The signals of a successful move are, in this order: board
    changed; score changed, when points were earned, with the squares
    of the completed paths; player changed; level changed, when the
    move filled a level; status changed. *)
Theorem move_signals g p g' evs :
  reachable g →
  move p g = (Return (), g', evs) →
  evs
  = [mkEvent "BOARD CHANGED" None]
    ++ score_events (points_due (board g') (current_player g) p)
         (concat (completed (board g') (current_player g) p))
    ++ [mkEvent "PLAYER CHANGED" None]
    ++ level_events (move_count g')
    ++ [mkEvent "STATUS CHANGED" None].
Proof.
  intros Hr Hm.
  by destruct (move_report g p g' evs Hr Hm) as (r & b & _ & _ & _ & Hevs).
Qed.

(** X11. The status after a successful move lists, in this order: the
    points earned, if any, in the singular for one point; the way up,
    when the move filled a level and the game goes on; the winner or
    the tie, when the move ended the game. *)
Theorem move_status g p g' evs :
  reachable g →
  move p g = (Return (), g', evs) →
  ∃ r b,
    scores g' !! RED = Some r ∧ scores g' !! BLUE = Some b
    ∧ status g'
      = points_status (points_due (board g') (current_player g) p)
        ++ level_status (move_count g')
        ++ end_status (move_count g') r b.
Proof.
  intros Hr Hm.
  destruct (move_report g p g' evs Hr Hm) as (r & b & Hred & Hblue & Hst & _).
  by exists r, b.
Qed.

(** X12. The squares a move highlights all belong to the player who
    moved, and the square just taken is one of them. *)
Theorem move_highlights_own_squares g p g' evs xyzs :
  reachable g →
  move p g = (Return (), g', evs) →
  mkEvent "SCORE CHANGED" (Some xyzs) ∈ evs →
  p ∈ xyzs ∧ ∀ c, c ∈ xyzs → owned (board g') (current_player g) c = true.
Proof.
  intros Hr Hm Hin.
  destruct (move_report g p g' evs Hr Hm) as (r & b & _ & _ & _ & Hevs).
  rewrite Hevs in Hin. clear Hevs.
  set (points := points_due _ _ _) in *.
  assert (xyzs = concat (completed (board g') (current_player g) p)
          ∧ points ≠ 0) as [-> Hpoints].
  { unfold score_events, level_events in Hin.
    repeat case_bool_decide;
      repeat (apply elem_of_cons in Hin as [Hin|Hin]; [by simplify_eq|]);
      by apply not_elem_of_nil in Hin. }
  split.
  - (* some path through [p] was completed, or no point was earned *)
    destruct (completed (board g') (current_player g) p) as [|path rest] eqn:Hc.
    + exfalso. apply Hpoints. unfold points, points_due.
      assert (Forall (λ path, path_worth (board g') (current_player g) p path = 0)
                     _winning_paths) as Hzero.
      { apply Forall_forall. intros path Hpath. unfold path_worth.
        destruct (bool_decide (p ∈ path)
                  && forallb (owned (board g') (current_player g)) path) eqn:Hw;
          [|done].
        apply andb_true_iff in Hw as [Hp Hown].
        assert (path ∈ completed (board g') (current_player g) p) as Hpc.
        { apply list_elem_of_filter. split; [|done]. split.
          - by apply bool_decide_eq_true in Hp.
          - apply Forall_forall. intros c Hcin.
            rewrite forallb_forall in Hown.
            by apply Hown, list_elem_of_In. }
        rewrite Hc in Hpc. by apply not_elem_of_nil in Hpc. }
      clear -Hzero. induction Hzero as [|path l Hp _ IH]; [done|].
      rewrite fmap_cons. unfold Zsum in *. cbn [foldr]. by rewrite Hp, IH.
    + assert (path ∈ completed (board g') (current_player g) p) as Hpc
        by (rewrite Hc; by left).
      apply list_elem_of_filter in Hpc as [[Hp _] _].
      cbn [concat]. apply elem_of_app. by left.
  - intros c Hc. apply elem_of_concat in Hc as (path & Hc & Hpath).
    apply list_elem_of_filter in Hpath as [[_ Hown] _].
    rewrite Forall_forall in Hown. by apply Hown.
Qed.

(** ** Construction and reset *)

Lemma keys_ok_init_board (l : list position) (b : gmap position Square) :
  (∀ c sq, b !! c = Some sq → xyz sq = c) →
  ∀ c sq, foldl (λ b p, <[p := Square_init p]> b) b l !! c = Some sq →
          xyz sq = c.
Proof.
  revert b. induction l as [|p l IH]; intros b Hb c sq; cbn [foldl].
  - apply Hb.
  - apply IH. intros c' sq'. destruct (decide (p = c')) as [->|Hne].
    + rewrite lookup_insert_eq. by intros [= <-].
    + rewrite lookup_insert_ne by done. apply Hb.
Qed.

Lemma keys_ok_reset choice fp g :
  keys_ok g → keys_ok (game_of (reset choice fp g)).
Proof.
  intros Hk c sq. rewrite reset_run. unfold game_of. cbn [fst snd board].
  rewrite lookup_fmap. destruct (board g !! c) as [sq0|] eqn:Hc; [|done].
  cbn. intros [= <-]. cbn. by apply Hk.
Qed.

Lemma reachable_keys_ok g : reachable g → keys_ok g.
Proof.
  induction 1 as [choice fp|g choice fp _ IH|g p Hr IH].
  - unfold Game_init. apply keys_ok_reset. unfold keys_ok. cbn [board].
    apply keys_ok_init_board. intros c sq. by rewrite lookup_empty.
  - by apply keys_ok_reset.
  - destruct (reachable_inv g Hr) as [Hwf _].
    destruct (move_cases g p Hwf) as [| | |sq st evs Hl Hsq Hv]; try exact IH.
    intros c sq'. unfold game_of. cbn [fst snd].
    change (board (placed g p) !! c = Some sq' → xyz sq' = c).
    rewrite lookup_placed. case_decide as Hc.
    + subst c. rewrite Hsq. cbn. intros [= <-]. cbn. by apply IH.
    + apply IH.
Qed.

(** X13. Resetting a reachable game gives the very game that the
    constructor builds for the same first player. *)
Theorem reset_is_new_game g choice fp :
  reachable g →
  game_of (reset choice fp g) = game_of (Game_init choice fp).
Proof.
  intros Hr. destruct (reachable_inv g Hr) as [[Hb _] _].
  pose proof (reachable_keys_ok g Hr) as Hk.
  unfold Game_init. rewrite !reset_run. unfold game_of. cbn [fst snd board scores].
  set (b0 := foldl _ _ _).
  assert (∀ c sq, b0 !! c = Some sq → xyz sq = c) as Hk0.
  { apply keys_ok_init_board. intros c sq. by rewrite lookup_empty. }
  assert (dom b0 = list_to_set iter_xyz) as Hb0.
  { apply (board_ok_before_reset choice). }
  f_equal.
  - apply map_eq. intros c. rewrite !lookup_fmap.
    destruct (board g !! c) as [sq|] eqn:Hc, (b0 !! c) as [sq0|] eqn:Hc0; cbn.
    + unfold Square_reset. by rewrite (Hk c sq Hc), (Hk0 c sq0 Hc0).
    + apply elem_of_dom_2 in Hc. rewrite Hb, <- Hb0 in Hc.
      apply elem_of_dom in Hc as [? Hc]. congruence.
    + apply elem_of_dom_2 in Hc0. rewrite Hb0, <- Hb in Hc0.
      apply elem_of_dom in Hc0 as [? Hc0]. congruence.
    + done.
  - apply map_eq. intros [].
    + rewrite !(lookup_insert_ne _ BLUE RED) by done.
      by rewrite !lookup_insert_eq.
    + by rewrite !lookup_insert_eq.
Qed.

(** ** The squares and the lines of the cube *)

(** X14. [iter_xyz] yields each square of the cube once: 27 positions,
    no position twice, and exactly those with all three coordinates
    between 0 and 2. *)
Theorem iter_xyz_enumerates_cube :
  length iter_xyz = 27%nat
  ∧ NoDup iter_xyz
  ∧ ∀ x y z, (x, y, z) ∈ iter_xyz ↔ 0 ≤ x ≤ 2 ∧ 0 ≤ y ≤ 2 ∧ 0 ≤ z ≤ 2.
Proof.
  split; [reflexivity|]. split.
  - apply (bool_decide_unpack _). vm_compute. exact I.
  - apply elem_of_iter_xyz.
Qed.

Lemma same_cells_b_sound p q : same_cells_b p q = true → same_cells p q.
Proof.
  unfold same_cells_b. rewrite andb_true_iff, !forallb_forall.
  intros [Hpq Hqp] c. split; intros Hc.
  - apply list_elem_of_In in Hc. by apply Hpq, bool_decide_eq_true in Hc.
  - apply list_elem_of_In in Hc. by apply Hqp, bool_decide_eq_true in Hc.
Qed.

Lemma elem_of_directions dx dy dz :
  -1 ≤ dx ≤ 1 → -1 ≤ dy ≤ 1 → -1 ≤ dz ≤ 1 → (dx, dy, dz) ≠ (0, 0, 0) →
  (dx, dy, dz) ∈ directions.
Proof.
  intros Hx Hy Hz Hd.
  assert (dx = -1 ∨ dx = 0 ∨ dx = 1) as Hx' by lia.
  assert (dy = -1 ∨ dy = 0 ∨ dy = 1) as Hy' by lia.
  assert (dz = -1 ∨ dz = 0 ∨ dz = 1) as Hz' by lia.
  destruct Hx' as [-> | [-> | ->]], Hy' as [-> | [-> | ->]],
    Hz' as [-> | [-> | ->]];
    try done; apply (bool_decide_unpack _); vm_compute; exact I.
Qed.

(** X15. The table holds straight lines only: every entry is three
    squares of the cube in a row, from some square in some direction. *)
Theorem winning_paths_are_lines :
  Forall (λ path, ∃ c d, d ≠ (0, 0, 0) ∧ path = line c d
                         ∧ Forall (λ q, q ∈ iter_xyz) path)
         _calc_winning_paths.
Proof.
  rewrite <- _winning_paths_eq. unfold _winning_paths.
  repeat (apply Forall_cons; split;
    [ match goal with
      | |- ∃ c d, _ ∧ (?a :: (?x, ?y, ?z) :: _) = _ ∧ _ =>
          exists a, (x - a.1.1, y - a.1.2, z - a.2)
      end;
      split; [discriminate|]; split; [reflexivity|];
      repeat (apply Forall_cons; split;
              [apply (bool_decide_unpack _); vm_compute; exact I|]);
      apply Forall_nil_2
    | ]).
  apply Forall_nil_2.
Qed.

(** X16. The table misses no line: three squares of the cube in a row,
    in whatever direction, are the squares of some entry. *)
Theorem every_line_is_a_winning_path c d :
  d ≠ (0, 0, 0) →
  Forall (λ q, q ∈ iter_xyz) (line c d) →
  ∃ path, path ∈ _calc_winning_paths ∧ same_cells path (line c d).
Proof.
  intros Hd Hline. rewrite <- _winning_paths_eq.
  assert (lines_covered_b = true) as Hall by (vm_compute; reflexivity).
  unfold lines_covered_b in Hall. rewrite forallb_forall in Hall.
  pose proof Hline as Hcube. unfold line in Hcube.
  apply Forall_cons in Hcube as [Hc Hcube].
  apply Forall_cons in Hcube as [_ Hcube].
  apply Forall_cons in Hcube as [Hc2 _].
  specialize (Hall c (proj1 (list_elem_of_In _ _) Hc)).
  rewrite forallb_forall in Hall.
  assert (d ∈ directions) as Hdir.
  { destruct c as [[x y] z], d as [[dx dy] dz]. unfold step in Hc2. cbn in Hc2.
    apply elem_of_iter_xyz in Hc, Hc2.
    apply elem_of_directions; [lia..|done]. }
  specialize (Hall d (proj1 (list_elem_of_In _ _) Hdir)).
  assert (forallb (λ q, bool_decide (q ∈ iter_xyz)) (line c d) = true) as Hin.
  { apply forallb_forall. intros q Hq. apply bool_decide_eq_true.
    rewrite Forall_forall in Hline. by apply Hline, list_elem_of_In. }
  rewrite Hin in Hall. cbn [implb] in Hall.
  apply existsb_exists in Hall as (path & Hpath & Hsame).
  exists path. split; [by apply list_elem_of_In|]. by apply same_cells_b_sound.
Qed.

(** * The scheduler *)

Section scheduler_facts.
Context {Callback : Type} `{EqDecision Callback}.

Lemma list_remove_first {A} `{EqDecision A} (x : A) (keep l : list A) :
  x ∉ keep → list_remove x (keep ++ x :: l) = Some (keep ++ l).
Proof.
  intros Hx. induction keep as [|y keep IH]; cbn [app list_remove].
  - by rewrite decide_True.
  - apply not_elem_of_cons in Hx as [Hne Hx].
    rewrite decide_False by done. by rewrite IH.
Qed.

(** Removing, one by one and in order, the entries of a list that pass
    a test leaves the entries that fail it. *)
Lemma tick_loop_filter (P : Z * Callback → Prop) `{!∀ tc, Decision (P tc)}
    (l keep : list (Z * Callback)) called :
  Forall (λ tc, ¬ P tc) keep →
  tick_loop (λ _ w, w) (filter P l) (keep ++ l) called
  = (Return (), keep ++ filter (λ tc, ¬ P tc) l,
     called ++ (snd <$> filter P l)).
Proof.
  revert keep called. induction l as [|[t c] l IH]; intros keep called Hkeep.
  - cbn. by rewrite !app_nil_r.
  - rewrite !filter_cons. destruct (decide (P (t, c))) as [HP|HP].
    + rewrite decide_False by (intros Hn; by apply Hn).
      cbn [tick_loop]. rewrite list_remove_first.
      * rewrite IH by done. rewrite fmap_cons. cbn [snd].
        by rewrite <- app_assoc.
      * intros Hin. rewrite Forall_forall in Hkeep. by apply (Hkeep _ Hin).
    + rewrite decide_True by done.
      replace (keep ++ (t, c) :: l) with ((keep ++ [(t, c)]) ++ l)
        by by rewrite <- app_assoc.
      rewrite IH.
      * by rewrite <- app_assoc.
      * apply Forall_app. split; [done|]. by apply Forall_singleton.
Qed.

Lemma remove_loop_filter (P : Z * Callback → Prop) `{!∀ tc, Decision (P tc)}
    (l keep : list (Z * Callback)) :
  Forall (λ tc, ¬ P tc) keep →
  remove_loop (filter P l) (keep ++ l)
  = (Return (), keep ++ filter (λ tc, ¬ P tc) l).
Proof.
  revert keep. induction l as [|[t c] l IH]; intros keep Hkeep.
  - cbn. by rewrite !app_nil_r.
  - rewrite !filter_cons. destruct (decide (P (t, c))) as [HP|HP].
    + rewrite decide_False by (intros Hn; by apply Hn).
      cbn [remove_loop]. rewrite list_remove_first.
      * by rewrite IH.
      * intros Hin. rewrite Forall_forall in Hkeep. by apply (Hkeep _ Hin).
    + rewrite decide_True by done.
      replace (keep ++ (t, c) :: l) with ((keep ++ [(t, c)]) ++ l)
        by by rewrite <- app_assoc.
      rewrite IH.
      * by rewrite <- app_assoc.
      * apply Forall_app. split; [done|]. by apply Forall_singleton.
Qed.

Lemma tick_loop_ext (call : Callback → list (Z * Callback) → list (Z * Callback))
    to_call waiting called :
  (∀ c w, call c w = w) →
  tick_loop call to_call waiting called
  = tick_loop (λ _ w, w) to_call waiting called.
Proof.
  intros Hcall. revert waiting called.
  induction to_call as [|[t c] rest IH]; intros waiting called; [done|].
  cbn [tick_loop]. destruct (list_remove (t, c) waiting); [|done].
  by rewrite Hcall, IH.
Qed.

Variable call : Callback → list (Z * Callback) → list (Z * Callback).

(** The callbacks leave the scheduler alone. *)
Hypothesis call_quiet : ∀ c w, call c w = w.

Lemma tick_run now waiting :
  Scheduler_tick call now waiting
  = (Return (),
     filter (λ tc : Z * Callback, ¬ now >= tc.1) waiting,
     snd <$> filter (λ tc : Z * Callback, now >= tc.1) waiting).
Proof.
  unfold Scheduler_tick. rewrite tick_loop_ext by done.
  apply (tick_loop_filter (λ tc : Z * Callback, now >= tc.1) waiting [] []).
  constructor.
Qed.

(** X17. With callbacks that leave the scheduler alone, [tick] calls
    the callbacks that are due, each as often and in the order it
    waits, keeps the others waiting in their order, and raises
    nothing. *)
Theorem Scheduler_tick_calls_due now waiting :
  Scheduler_tick call now waiting
  = (Return (),
     filter (λ tc : Z * Callback, now < tc.1) waiting,
     snd <$> filter (λ tc : Z * Callback, tc.1 ≤ now) waiting).
Proof.
  rewrite tick_run. f_equal; [f_equal|].
  - apply list_filter_iff. intros [t c]. cbn. lia.
  - f_equal. apply list_filter_iff. intros [t c]. cbn. lia.
Qed.

(** X18. After a tick nothing is due: a second tick at the same time
    or an earlier one calls nothing and changes nothing. *)
Theorem Scheduler_tick_once now now' waiting :
  now' ≤ now →
  Scheduler_tick call now'
    (Scheduler_tick call now waiting).1.2
  = (Return (), (Scheduler_tick call now waiting).1.2, []).
Proof.
  intros Hle. rewrite !tick_run. cbn [fst snd].
  f_equal; [f_equal|].
  - rewrite list_filter_filter. apply list_filter_iff. intros [t c]. cbn. lia.
  - assert (filter (λ tc : Z * Callback, now' >= tc.1)
              (filter (λ tc : Z * Callback, ¬ now >= tc.1) waiting) = []) as ->;
      [|done].
    rewrite list_filter_filter.
    induction waiting as [|[t c] l IH]; [done|].
    rewrite filter_cons, decide_False by (cbn; lia). exact IH.
Qed.

(** X19. [set_timer(0, callback)] cancels every timer of the callback
    and no timer of another one, and raises nothing. *)
Theorem Scheduler_set_timer_zero_cancels now callback waiting :
  Scheduler_set_timer now 0 callback waiting
  = (Return (), filter (λ tc : Z * Callback, tc.2 ≠ callback) waiting).
Proof.
  unfold Scheduler_set_timer. rewrite bool_decide_eq_true_2 by done.
  apply (remove_loop_filter (λ tc : Z * Callback, tc.2 = callback) waiting []).
  constructor.
Qed.

(** X20. A timer set for a delay other than 0 waits until its time has
    come: a tick before that time leaves it waiting behind the others,
    a tick from that time on calls it after the others that are due. *)
Theorem Scheduler_timer_fires_on_time now milliseconds callback waiting t :
  milliseconds ≠ 0 →
  Scheduler_tick call t
    (Scheduler_set_timer now milliseconds callback waiting).2
  = if bool_decide (now + milliseconds ≤ t) then
      (Return (),
       (Scheduler_tick call t waiting).1.2,
       (Scheduler_tick call t waiting).2 ++ [callback])
    else
      (Return (),
       (Scheduler_tick call t waiting).1.2 ++ [(now + milliseconds, callback)],
       (Scheduler_tick call t waiting).2).
Proof.
  intros Hms. unfold Scheduler_set_timer.
  rewrite bool_decide_eq_false_2 by done. cbn [snd].
  rewrite !tick_run. cbn [fst snd].
  rewrite !filter_app, !filter_cons, !filter_nil. cbn [fst].
  case_bool_decide.
  - rewrite decide_False by lia. rewrite decide_True by lia.
    by rewrite app_nil_r, fmap_app.
  - rewrite decide_True by lia. rewrite decide_False by lia.
    by rewrite app_nil_r.
Qed.

(** X21. A callback whose timers were cancelled is not called by the
    next tick. *)
Theorem Scheduler_cancelled_not_called now callback waiting t :
  callback ∉ (Scheduler_tick call t
                (Scheduler_set_timer now 0 callback waiting).2).2.
Proof.
  unfold Scheduler_set_timer. rewrite bool_decide_eq_true_2 by done.
  rewrite (remove_loop_filter (λ tc : Z * Callback, tc.2 = callback)
             waiting []) by constructor.
  rewrite tick_run. cbn [snd app]. intros Hin.
  apply list_elem_of_fmap in Hin as ([t' c] & -> & Hin).
  apply list_elem_of_filter in Hin as [_ Hin].
  apply list_elem_of_filter in Hin as [Hne _]. by apply Hne.
Qed.

End scheduler_facts.

Section scheduler_reentry.
Context {Callback : Type} `{EqDecision Callback}.
Variable call : Callback → list (Z * Callback) → list (Z * Callback).

(** X22. A callback that cancels a timer which the same tick is about
    to serve makes [tick] raise the [ValueError] of [list.remove]; the
    cancelled callback is not called. *)
Theorem Scheduler_tick_cancelled_while_due now now' t1 t2 a b :
  a ≠ b → t1 ≤ now → t2 ≤ now →
  (∀ w, call a w = (Scheduler_set_timer now' 0 b w).2) →
  Scheduler_tick call now [(t1, a); (t2, b)]
  = (Raise (ValueError "list.remove(x): x not in list"), [], [a]).
Proof.
  intros Hab H1 H2 Hcall. unfold Scheduler_tick.
  rewrite !filter_cons, filter_nil.
  rewrite !decide_True by (cbn; lia).
  cbn [tick_loop list_remove]. rewrite decide_True by done.
  rewrite Hcall. unfold Scheduler_set_timer.
  rewrite bool_decide_eq_true_2 by done.
  rewrite filter_cons, filter_nil, decide_True by done.
  cbn [snd remove_loop list_remove]. rewrite decide_True by done.
  reflexivity.
Qed.

End scheduler_reentry.

(** * The text game *)

Lemma reachable_level_range g :
  reachable g → done g = false → 0 ≤ current_level g ≤ 2.
Proof.
  intros Hr Hd. destruct (reachable_history g Hr) as (ms & Hp & _).
  assert (length ms ≤ 27)%nat as Hlen.
  { change 27%nat with (length iter_xyz).
    apply submseteq_length, NoDup_submseteq.
    - apply (played_nodup _ _ Hp).
    - apply (played_on_board _ _ Hp). }
  apply bool_decide_eq_false in Hd. change TOTAL_SQUARES with 27 in Hd.
  pose proof (played_count _ _ Hp) as Hcount.
  unfold current_level. change SQUARES_PER_LEVEL with 9.
  split; [apply Z.div_pos; lia|].
  apply Z.lt_succ_r, Z.div_lt_upper_bound; lia.
Qed.

Section text_game_facts.
Variable int_of_str : string → option Z.

End text_game_facts.

(** * Status and texts *)

(** The status of a reachable game is empty or is what the last
    successful move left. *)
Lemma reachable_status g :
  reachable g →
  status g = []
  ∨ ∃ points mc r b,
      status g = points_status points ++ level_status mc ++ end_status mc r b.
Proof.
  induction 1 as [choice fp|g choice fp _ _|g p Hr IH].
  - left. unfold Game_init. by rewrite reset_run.
  - left. by rewrite reset_run.
  - destruct (move p g) as [[[[]|e] g'] evs] eqn:Hm.
    + right. destruct (move_report g p g' evs Hr Hm) as (r & b & _ & _ & Hst & _).
      eexists _, _, _, _. exact Hst.
    + destruct (reachable_inv g Hr) as [Hwf _].
      pose proof (move_cases g p Hwf) as Hcase. rewrite Hm in Hcase.
      inversion Hcase; subst; exact IH.
Qed.

Lemma level_end_status_length mc r b :
  (length (level_status mc ++ end_status mc r b) ≤ 1)%nat.
Proof.
  unfold level_status, end_status.
  destruct (bool_decide (mc = TOTAL_SQUARES)); cbn [negb andb].
  - rewrite andb_false_r. cbn. destruct (winner_of r b); cbn; lia.
  - destruct (_ && _); cbn; lia.
Qed.

(** X24. A reachable game never has more status messages than the
    view has lines for them: there are at most two. *)
Theorem reachable_status_fits g :
  reachable g →
  (length (status g) ≤ 2)%nat
  ∧ Z.of_nat (length (status g)) ≤ MAX_SHOWABLE_STATUS_LINES.
Proof.
  intros Hr.
  assert (length (status g) ≤ 2)%nat as Hlen.
  { destruct (reachable_status g Hr) as [->|(points & mc & r & b & ->)];
      [cbn; lia|].
    rewrite length_app. pose proof (level_end_status_length mc r b).
    unfold points_status. case_bool_decide; cbn [length]; lia. }
  split; [done|]. unfold MAX_SHOWABLE_STATUS_LINES. lia.
Qed.

Lemma format_status_ok (m : string * list arg) points mc r b :
  m ∈ points_status points ++ level_status mc ++ end_status mc r b →
  is_Some (format m.1 (str_arg <$> m.2)).
Proof.
  unfold points_status, level_status, end_status.
  intros Hm. repeat (apply elem_of_app in Hm as [Hm|Hm]).
  - case_bool_decide; [|by apply not_elem_of_nil in Hm].
    apply list_elem_of_singleton in Hm as ->. cbn. eauto.
  - destruct (_ && _); [|by apply not_elem_of_nil in Hm].
    apply list_elem_of_singleton in Hm as ->. cbn. eauto.
  - case_bool_decide; [|by apply not_elem_of_nil in Hm].
    destruct (winner_of r b);
      apply list_elem_of_singleton in Hm as ->; cbn; eauto.
Qed.

(** X25. On a reachable game [print_status] raises nothing: every
    status format comes with the arguments it asks for. *)
Theorem print_status_never_raises g out :
  reachable g → is_Some (TextGame_print_status g out).
Proof.
  intros Hr. unfold TextGame_print_status. case_bool_decide; [eauto|].
  assert (is_Some (mapM (λ m : string * list arg, format m.1 (str_arg <$> m.2))
                        (status g))) as [texts ->]; [|cbn; eauto].
  apply mapM_is_Some, Forall_forall. intros m Hm.
  destruct (reachable_status g Hr) as [Hs|(points & mc & r & b & Hs)];
    rewrite Hs in Hm.
  - by apply not_elem_of_nil in Hm.
  - by eapply format_status_ok.
Qed.

(** X26. The message for the points of a move reads "1 point!" for one
    point and "n points!" for any other number of points. *)
Theorem points_status_text points :
  points ≠ 0 →
  (λ m : string * list arg, format m.1 (str_arg <$> m.2)) <$> points_status points
  = [Some (if bool_decide (points = 1) then "1 point!"%string
           else pretty points +:+ " points!")].
Proof.
  intros Hp. unfold points_status. rewrite bool_decide_eq_true_2 by done.
  cbn. repeat case_bool_decide; try done; by subst.
Qed.

(** X27. [Square.__repr__] has two characters, and they tell the value
    of the square and whether it is special. *)
Theorem Square_repr_tells sq1 sq2 :
  String.length (Square_repr sq1) = 2%nat
  ∧ (Square_repr sq1 = Square_repr sq2 →
     value sq1 = value sq2 ∧ special sq1 = special sq2).
Proof.
  unfold Square_repr.
  destruct sq1 as [p1 [[]|] []], sq2 as [p2 [[]|] []]; cbn;
    split; try done; discriminate.
Qed.

(** X28. No two squares of the cube are drawn at the same place. *)
Theorem Square_view_places_differ p q :
  p ∈ iter_xyz → q ∈ iter_xyz →
  Square_view_bottom p = Square_view_bottom q →
  Square_view_left p = Square_view_left q →
  p = q.
Proof.
  destruct p as [[x y] z], q as [[x' y'] z'].
  rewrite !elem_of_iter_xyz. unfold Square_view_bottom, Square_view_left, invert.
  change SIZE with 3.
  unfold SCREEN_HEIGHT, BOARD_OFFSET_BOTTOM, BOARD_OFFSET_LEFT, Z_OFFSET_BOTTOM,
    Y_OFFSET_BOTTOM, Y_OFFSET_LEFT, X_OFFSET_LEFT.
  intros Hp Hq Hb Hl.
  assert (z = z') by lia. assert (y = y') by lia. assert (x = x') by lia.
  by subst.
Qed.

(** X29. The level label of a reachable game shows the current level,
    counted from 1, and stays at 3 when the game is done. *)
Theorem LevelLabel_shows_level g :
  reachable g →
  LevelLabel_calc_text g
  = if done g then "Level: 3"%string
    else "Level: " +:+ pretty (current_level g + 1).
Proof.
  intros Hr. unfold LevelLabel_calc_text. destruct (done g) eqn:Hd.
  - apply bool_decide_eq_true in Hd. unfold current_level. by rewrite Hd.
  - pose proof (reachable_level_range g Hr Hd). change SIZE with 3.
    by rewrite Z.min_l by lia.
Qed.

Lemma calc_text_status_ok (m : string * list arg) points mc r b :
  m ∈ points_status points ++ level_status mc ++ end_status mc r b →
  is_Some (if bool_decide (m.1 = STATUS_WINNER) then
             match m.2 with
             | [] => Some EmptyString
             | a :: _ => name ← square_value_to_string a; format m.1 [name]
             end
           else format m.1 (str_arg <$> m.2)).
Proof.
  unfold points_status, level_status, end_status.
  intros Hm. repeat (apply elem_of_app in Hm as [Hm|Hm]).
  - case_bool_decide; [|by apply not_elem_of_nil in Hm].
    apply list_elem_of_singleton in Hm as ->. cbn. eauto.
  - destruct (_ && _); [|by apply not_elem_of_nil in Hm].
    apply list_elem_of_singleton in Hm as ->. cbn. eauto.
  - case_bool_decide; [|by apply not_elem_of_nil in Hm].
    destruct (winner_of r b) as [[]|];
      apply list_elem_of_singleton in Hm as ->; cbn; eauto.
Qed.

(** X30. On a reachable game no status label raises: a label whose
    line is beyond the status shows the empty text, and every other
    label shows a text. *)
Theorem StatusLabel_shows_text g line_number :
  reachable g →
  is_Some (StatusLabel_calc_text g line_number)
  ∧ ((length (status g) ≤ line_number)%nat →
     StatusLabel_calc_text g line_number = Some EmptyString).
Proof.
  intros Hr. unfold StatusLabel_calc_text. split.
  - destruct (status g !! line_number) as [[fmt args]|] eqn:Hline; [|eauto].
    apply list_elem_of_lookup_2 in Hline.
    destruct (reachable_status g Hr) as [Hs|(points & mc & r & b & Hs)];
      rewrite Hs in Hline.
    + by apply not_elem_of_nil in Hline.
    + apply (calc_text_status_ok (fmt, args) points mc r b Hline).
  - intros Hlen. by rewrite lookup_ge_None_2.
Qed.

(** * The further properties at work on concrete inputs *)

Lemma reachable_foldl_move g ms :
  reachable g → reachable (foldl (λ g p, game_of (move p g)) g ms).
Proof.
  revert g. induction ms as [|m ms IH]; intros g Hr; [done|].
  cbn [foldl]. apply IH. by apply reachable_move.
Qed.

Lemma reachable_finished_game : reachable finished_game.
Proof. apply reachable_foldl_move, reachable_init. Qed.

Lemma reachable_move_count_bounds_witness :
  0 ≤ move_count after_opening ≤ TOTAL_SQUARES
  ∧ 0 ≤ current_level after_opening ≤ SIZE.
Proof.
  apply (reachable_move_count_bounds after_opening).
  apply reachable_after_opening.
Defined.

Lemma reachable_taken_count_witness :
  Z.of_nat (size (taken (board after_opening))) = move_count after_opening.
Proof.
  apply (reachable_taken_count after_opening). apply reachable_after_opening.
Defined.

Lemma reachable_blank_not_special_witness :
  special (mkSquare (2, 2, 0) BLANK false) = false.
Proof.
  apply (reachable_blank_not_special after_opening (2, 2, 0)).
  - apply reachable_after_opening.
  - vm_compute. reflexivity.
  - reflexivity.
Defined.

Lemma reachable_levels_witness :
  (0 < current_level finished_game →
   value (mkSquare (1, 1, 0) (Some RED) false) ≠ BLANK)
  ∧ (current_level finished_game < 0 →
     value (mkSquare (1, 1, 0) (Some RED) false) = BLANK).
Proof.
  apply (reachable_levels finished_game 1 1 0).
  - apply reachable_finished_game.
  - vm_compute. reflexivity.
Defined.

Lemma move_takes_square_witness :
  ∃ sq, board after_opening !! (2, 0, 0) = Some sq
        ∧ value sq = BLANK
        ∧ board (game_of (move (2, 0, 0) after_opening)) !! (2, 0, 0)
          = Some (mkSquare (xyz sq) (Some (current_player after_opening))
                           (current_move_special after_opening))
        ∧ move_count (game_of (move (2, 0, 0) after_opening))
          = move_count after_opening + 1.
Proof.
  apply (move_takes_square after_opening (2, 0, 0) _
           (sent_by (move (2, 0, 0) after_opening))).
  - apply reachable_after_opening.
  - vm_compute. reflexivity.
Defined.

Lemma move_passes_turn_witness :
  current_player (game_of (move (2, 0, 0) after_opening))
  = other_player (current_player after_opening)
  ∧ current_player (game_of (move (2, 0, 0) after_opening))
    ≠ current_player after_opening.
Proof.
  apply (move_passes_turn after_opening (2, 0, 0) _
           (sent_by (move (2, 0, 0) after_opening))).
  - apply reachable_after_opening.
  - vm_compute. reflexivity.
Defined.


Lemma move_never_lowers_score_witness :
  ∃ s', scores (game_of (move (2, 0, 0) after_opening)) !! RED = Some s'
        ∧ 0 ≤ s'.
Proof.
  apply (move_never_lowers_score after_opening (2, 0, 0) RED 0).
  - apply reachable_after_opening.
  - vm_compute. reflexivity.
Defined.

Lemma reachable_scores_nonneg_witness :
  ∃ s, scores finished_game !! BLUE = Some s ∧ 0 ≤ s.
Proof.
  apply (reachable_scores_nonneg finished_game BLUE).
  apply reachable_finished_game.
Defined.

Lemma move_signals_witness :
  sent_by (move (2, 0, 0) after_opening)
  = [mkEvent "BOARD CHANGED" None]
    ++ score_events
         (points_due (board (game_of (move (2, 0, 0) after_opening)))
            (current_player after_opening) (2, 0, 0))
         (concat (completed (board (game_of (move (2, 0, 0) after_opening)))
                    (current_player after_opening) (2, 0, 0)))
    ++ [mkEvent "PLAYER CHANGED" None]
    ++ level_events (move_count (game_of (move (2, 0, 0) after_opening)))
    ++ [mkEvent "STATUS CHANGED" None].
Proof.
  apply (move_signals after_opening (2, 0, 0)).
  - apply reachable_after_opening.
  - vm_compute. reflexivity.
Defined.

Lemma move_status_witness :
  ∃ r b,
    scores (game_of (move (2, 0, 0) after_opening)) !! RED = Some r
    ∧ scores (game_of (move (2, 0, 0) after_opening)) !! BLUE = Some b
    ∧ status (game_of (move (2, 0, 0) after_opening))
      = points_status
          (points_due (board (game_of (move (2, 0, 0) after_opening)))
             (current_player after_opening) (2, 0, 0))
        ++ level_status (move_count (game_of (move (2, 0, 0) after_opening)))
        ++ end_status (move_count (game_of (move (2, 0, 0) after_opening))) r b.
Proof.
  apply (move_status after_opening (2, 0, 0) _
           (sent_by (move (2, 0, 0) after_opening))).
  - apply reachable_after_opening.
  - vm_compute. reflexivity.
Defined.

Lemma move_highlights_own_squares_witness :
  (2, 0, 0) ∈ [(0, 0, 0); (1, 0, 0); (2, 0, 0)]
  ∧ ∀ c, c ∈ [(0, 0, 0); (1, 0, 0); (2, 0, 0)] →
         owned (board (game_of (move (2, 0, 0) after_opening)))
               (current_player after_opening) c = true.
Proof.
  apply (move_highlights_own_squares after_opening (2, 0, 0) _
           (sent_by (move (2, 0, 0) after_opening))).
  - apply reachable_after_opening.
  - vm_compute. reflexivity.
  - apply list_elem_of_In. vm_compute. right. left. reflexivity.
Defined.

Lemma reset_is_new_game_witness :
  game_of (reset BLUE None finished_game) = game_of (Game_init BLUE None).
Proof.
  apply (reset_is_new_game finished_game BLUE None).
  apply reachable_finished_game.
Defined.

Lemma every_line_is_a_winning_path_witness :
  ∃ path, path ∈ _calc_winning_paths
          ∧ same_cells path (line (0, 2, 0) (1, -1, 1)).
Proof.
  apply (every_line_is_a_winning_path (0, 2, 0) (1, -1, 1)).
  - discriminate.
  - repeat (apply Forall_cons; split;
            [apply (bool_decide_unpack _); vm_compute; exact I|]).
    apply Forall_nil_2.
Defined.

Lemma quiet_is_quiet : ∀ c w, quiet c w = w.
Proof. reflexivity. Qed.

Lemma Scheduler_tick_calls_due_witness :
  Scheduler_tick quiet 500 [(400, 1%nat); (900, 2%nat); (500, 3%nat)]
  = (Return (), [(900, 2%nat)], [1%nat; 3%nat]).
Proof.
  apply (Scheduler_tick_calls_due quiet quiet_is_quiet 500
           [(400, 1%nat); (900, 2%nat); (500, 3%nat)]).
Defined.

Lemma Scheduler_tick_once_witness :
  Scheduler_tick quiet 450
    (Scheduler_tick quiet 500 [(400, 1%nat); (900, 2%nat)]).1.2
  = (Return (), (Scheduler_tick quiet 500 [(400, 1%nat); (900, 2%nat)]).1.2, []).
Proof.
  apply (Scheduler_tick_once quiet quiet_is_quiet 500 450). lia.
Defined.

Lemma Scheduler_timer_fires_on_time_witness :
  Scheduler_tick quiet 450
    (Scheduler_set_timer 100 400 7%nat [(400, 1%nat)]).2
  = if bool_decide (100 + 400 ≤ 450) then
      (Return (),
       (Scheduler_tick quiet 450 [(400, 1%nat)]).1.2,
       (Scheduler_tick quiet 450 [(400, 1%nat)]).2 ++ [7%nat])
    else
      (Return (),
       (Scheduler_tick quiet 450 [(400, 1%nat)]).1.2 ++ [(100 + 400, 7%nat)],
       (Scheduler_tick quiet 450 [(400, 1%nat)]).2).
Proof.
  apply (Scheduler_timer_fires_on_time quiet quiet_is_quiet 100 400 7%nat).
  lia.
Defined.

Lemma Scheduler_cancelled_not_called_witness :
  1%nat ∉ (Scheduler_tick quiet 500
             (Scheduler_set_timer 0 0 1%nat [(400, 1%nat); (450, 2%nat)]).2).2.
Proof.
  apply (Scheduler_cancelled_not_called quiet quiet_is_quiet).
Defined.

Lemma Scheduler_tick_cancelled_while_due_witness :
  Scheduler_tick
    (λ (c : nat) w, if decide (c = 1%nat)
                    then (Scheduler_set_timer 0 0 2%nat w).2 else w)
    500 [(400, 1%nat); (450, 2%nat)]
  = (Raise (ValueError "list.remove(x): x not in list"), [], [1%nat]).
Proof.
  apply (Scheduler_tick_cancelled_while_due _ 500 0 400 450 1%nat 2%nat).
  - lia.
  - lia.
  - lia.
  - reflexivity.
Defined.


Lemma reachable_status_fits_witness :
  (length (status finished_game) ≤ 2)%nat
  ∧ Z.of_nat (length (status finished_game)) ≤ MAX_SHOWABLE_STATUS_LINES.
Proof.
  apply (reachable_status_fits finished_game). apply reachable_finished_game.
Defined.

Lemma print_status_never_raises_witness :
  is_Some (TextGame_print_status finished_game []).
Proof.
  apply (print_status_never_raises finished_game).
  apply reachable_finished_game.
Defined.

Lemma points_status_text_witness :
  (λ m : string * list arg, format m.1 (str_arg <$> m.2)) <$> points_status 2
  = [Some (if bool_decide (2 = 1) then "1 point!"%string
           else pretty 2 +:+ " points!")].
Proof. apply (points_status_text 2). lia. Defined.

Lemma Square_view_places_differ_witness : (1, 2, 0) = (1, 2, 0).
Proof.
  apply (Square_view_places_differ (1, 2, 0) (1, 2, 0)).
  - apply (bool_decide_unpack _). vm_compute. exact I.
  - apply (bool_decide_unpack _). vm_compute. exact I.
  - reflexivity.
  - reflexivity.
Defined.

Lemma LevelLabel_shows_level_witness :
  LevelLabel_calc_text finished_game
  = if done finished_game then "Level: 3"%string
    else "Level: " +:+ pretty (current_level finished_game + 1).
Proof.
  apply (LevelLabel_shows_level finished_game). apply reachable_finished_game.
Defined.

(** Sample runs of the further models. *)
Example text_game_run :
  TextGame_move int_of_numeral ["2"; "0,1"; "3,1"]%string [] new_game
  = (Returned, game_of (move (0, 2, 0) new_game),
     sent_by (move (0, 2, 0) new_game),
     mkConsole []
       [ (["X, please enter row,col:"%string], false);
         (["Expected num,num"%string], true);
         (["X, please enter row,col:"%string], false);
         (["Out of range:"%string; "0"%string], true);
         (["X, please enter row,col:"%string], false) ]).
Proof. vm_compute. reflexivity. Qed.

Example finished_game_status_run :
  TextGame_print_status finished_game []
  = Some [(["3 points! X wins!!!"%string], false)].
Proof. vm_compute. reflexivity. Qed.

Lemma StatusLabel_shows_text_witness :
  is_Some (StatusLabel_calc_text finished_game 1)
  ∧ ((length (status finished_game) ≤ 1)%nat →
     StatusLabel_calc_text finished_game 1 = Some EmptyString).
Proof.
  apply (StatusLabel_shows_text finished_game 1).
  apply reachable_finished_game.
Defined.

Example finished_game_labels_run :
  StatusLabel_calc_text finished_game <$> [0; 1; 2]%nat
  = [Some "3 points!"; Some "Red wins!!!"; Some EmptyString]%string.
Proof. vm_compute. reflexivity. Qed.

